(** * Naamrot converter (app.js): a shallow embedding in Rocq

    Characters are Unicode code points, written as [Z].  A JS string is a
    [list Z].  The word pipeline only ever sees parts made of the ASCII
    letters [A-Za-z] (see [WORD_TOKEN_RE]) and fixed ASCII exception
    outputs, so the [toUpperCase] / [toLowerCase] calls inside it are the
    ASCII case maps [upperA] / [lowerA].  The final [out.toUpperCase()] of
    [convertText] sees arbitrary text; it is the code-point-wise full
    Unicode case map, which is taken as a parameter [up] of [convertText].

    Property reads that the source guards with an explicit length check
    ([segs[0].ch], [s[2].toUpperCase()], ...) go through [nth_error]: an
    out-of-range read gives [undefined] and the following property access
    throws a TypeError, which is [None] here. *)

From Stdlib Require Import Ascii String ZArith List Lia Bool Sorted.
Import ListNotations.
Open Scope Z_scope.

(** ** Characters *)

(** A Rocq string literal read as a list of code points (ASCII only). *)
Definition js (s : string) : list Z :=
  map (fun a => Z.of_nat (nat_of_ascii a)) (list_ascii_of_string s).

(** [ch.toUpperCase()] / [ch.toLowerCase()] on an ASCII code point. *)
Definition upperA (c : Z) : Z := if (97 <=? c) && (c <=? 122) then c - 32 else c.
Definition lowerA (c : Z) : Z := if (65 <=? c) && (c <=? 90) then c + 32 else c.

Definition ups (s : list Z) : list Z := map upperA s.
Definition lows (s : list Z) : list Z := map lowerA s.

(** [String.prototype.toUpperCase]: each code point is mapped to its full
    uppercase form (one or more code points), independently of context. *)
Definition toUpperCase (up : Z -> list Z) (s : list Z) : list Z := flat_map up s.

Fixpoint list_eqb (a b : list Z) : bool :=
  match a, b with
  | [], [] => true
  | x :: a', y :: b' => (x =? y) && list_eqb a' b'
  | _, _ => false
  end.

(** The uppercase map agrees with [upperA] on the ASCII block. *)
Definition upper_ascii_ok (up : Z -> list Z) : bool :=
  forallb (fun n => list_eqb (up (Z.of_nat n)) [upperA (Z.of_nat n)]) (seq 0 128).

(** [s.endsWith(suf)] and [s.startsWith(pre)]. *)
Definition ends_with (s suf : list Z) : bool :=
  (length suf <=? length s)%nat && list_eqb (skipn (length s - length suf) s) suf.
Definition starts_with (s pre : list Z) : bool :=
  (length pre <=? length s)%nat && list_eqb (firstn (length pre) s) pre.

(** [VOWELS] and [SWAPPABLE]. *)
Definition isVowel (u : Z) : bool :=
  (u =? 65) || (u =? 69) || (u =? 73) || (u =? 79) || (u =? 85).
Definition isSwappable (u : Z) : bool := (u =? 65) || (u =? 69) || (u =? 73).

Definition isLetter (c : Z) : bool :=
  ((65 <=? c) && (c <=? 90)) || ((97 <=? c) && (c <=? 122)).
Definition isConsonantLetter (c : Z) : bool := isLetter c && negb (isVowel (upperA c)).

(** ** Segments *)

Record seg := Seg { ch : Z; origin : bool }.

Definition segFromString (str : list Z) (orig : bool) : list seg :=
  map (fun c => Seg c orig) str.
Definition segToString (segs : list seg) : list Z := map ch segs.

(** [segs.splice(start, end - start, ...insertSegs)] *)
Definition spliceSegs (segs : list seg) (start stop : nat) (ins : list seg) : list seg :=
  firstn start segs ++ ins ++ skipn stop segs.

(** The rendered, uppercased working string of a segment sequence. *)
Definition upperStr (segs : list seg) : list Z := ups (segToString segs).

(** ** Exceptions *)

Inductive exc_out :=
| OutFixed (s : list Z)
| OutFn (f : list Z -> list Z).

(** A table entry: a literal, or an anchored case-insensitive regex
    [/^(alt|alt|...)$/i]; the table only has alternations of literals. *)
Inductive exc_matcher :=
| Literal (m : list Z)
| Regex (alts : list (list Z)).

Record exception := Exc { matcher : exc_matcher; out : exc_out }.

Definition EXCEPTIONS : list exception :=
  [ Exc (Regex [js "very"]) (OutFixed (js "WELL"));
    Exc (Regex [js "well"]) (OutFixed (js "WELL"));
    Exc (Regex [js "you"; js "your"]) (OutFixed (js "YA"));
    Exc (Regex [js "the"]) (OutFixed (js "THA"));
    Exc (Regex [js "for"]) (OutFixed (js "FA"));
    Exc (Regex [js "please"]) (OutFixed (js "PALEASE"));
    Exc (Regex [js "deadline"]) (OutFixed (js "DODLINE"));
    Exc (Regex [js "mistakes"]) (OutFixed (js "MOSTAKES"));
    Exc (Regex [js "aminur"]) (OutFixed (js "AMINAH"));
    Exc (Regex [js "date"]) (OutFixed (js "DATE"));
    Exc (Regex [js "name"]) (OutFixed (js "NAME"));
    Exc (Regex [js "set"]) (OutFixed (js "SOT")) ].

(** Literal entries compare lowercased strings; [/i] regexes compare
    canonicalized (uppercased) characters over the whole part. *)
Definition exc_matches (ex : exception) (wordPart : list Z) : bool :=
  match matcher ex with
  | Literal m => list_eqb (lows wordPart) (lows m)
  | Regex alts => existsb (fun a => list_eqb (ups wordPart) (ups a)) alts
  end.

Definition exc_output (ex : exception) (wordPart : list Z) : list Z :=
  match out ex with
  | OutFixed s => s
  | OutFn f => f wordPart
  end.

Fixpoint applyExceptions_in (tbl : list exception) (wordPart : list Z) : bool * list Z :=
  match tbl with
  | [] => (false, wordPart)
  | ex :: rest =>
      if exc_matches ex wordPart then (true, exc_output ex wordPart)
      else applyExceptions_in rest wordPart
  end.

Definition applyExceptions (wordPart : list Z) : bool * list Z :=
  applyExceptions_in EXCEPTIONS wordPart.

(** ** Protected suffixes *)

(** [.sort((a, b) => b.length - a.length)]: a stable sort, longest first. *)
Fixpoint insert_by_len (x : list Z) (l : list (list Z)) : list (list Z) :=
  match l with
  | [] => [x]
  | y :: ys => if (length y <? length x)%nat then x :: y :: ys else y :: insert_by_len x ys
  end.
Definition sort_by_len_desc (l : list (list Z)) : list (list Z) :=
  fold_left (fun acc x => insert_by_len x acc) l [].

Definition PROTECTED_SUFFIXES : list (list Z) :=
  sort_by_len_desc
    [js "SHAN"; js "MENT"; js "TION"; js "ING"; js "ED"; js "ER"; js "LY";
     js "NESS"; js "ABLE"; js "IBLE"; js "OUS"; js "IVE"; js "AL"; js "ITY"].

Definition protectedSuffixStartIndex (segs : list seg) : nat :=
  let upper := upperStr segs in
  match find (fun suf => ends_with upper suf) PROTECTED_SUFFIXES with
  | Some suf => length upper - length suf
  | None => length upper
  end.

(** ** Fallible steps *)

Definition bind {A B} (m : option A) (k : A -> option B) : option B :=
  match m with Some x => k x | None => None end.
Notation "'let*' x ':=' m 'in' k" := (bind m (fun x => k))
  (at level 200, x ident, m at level 100, k at level 200, right associativity).

(** ** Suffix rules *)

(** [replaceAllERWithAH] / [replaceAllIRWithAR]: the loop
    [for (i = 0; i < segs.length - 1; i++)] splices a matching pair into
    two new segments of the same length and skips past them ([i += 1]). *)
Fixpoint replaceAllPair (x y : Z) (rep : list Z) (segs : list seg) : list seg :=
  match segs with
  | a :: ((b :: rest) as tl) =>
      if (upperA (ch a) =? x) && (upperA (ch b) =? y)
      then segFromString rep false ++ replaceAllPair x y rep rest
      else a :: replaceAllPair x y rep tl
  | _ => segs
  end.

Definition replaceAllERWithAH (segs : list seg) : list seg := replaceAllPair 69 82 (js "AH") segs.
Definition replaceAllIRWithAR (segs : list seg) : list seg := replaceAllPair 73 82 (js "AR") segs.

(** The ending rules mutate [segs] and return whether they fired. *)
Definition replaceEnding (suf rep : list Z) (segs : list seg) : list seg * bool :=
  let s := upperStr segs in
  if ends_with s suf && (length suf <=? length segs)%nat
  then (spliceSegs segs (length segs - length suf) (length segs) (segFromString rep false), true)
  else (segs, false).

Definition replaceEndingTION (segs : list seg) : list seg * bool := replaceEnding (js "TION") (js "SHAN") segs.
Definition replaceEndingTY (segs : list seg) : list seg * bool := replaceEnding (js "TY") (js "TEH") segs.
Definition replaceEndingAY (segs : list seg) : list seg * bool := replaceEnding (js "AY") (js "AEH") segs.

Definition replaceEndingLY (segs : list seg) : list seg :=
  let s := upperStr segs in
  if ends_with s (js "LEY") && (3 <=? length segs)%nat
  then spliceSegs segs (length segs - 3) (length segs) (segFromString (js "LEH") false)
  else if ends_with s (js "LY") && (2 <=? length segs)%nat
  then spliceSegs segs (length segs - 2) (length segs) (segFromString (js "LEH") false)
  else segs.

Definition replaceEndingYToEH (segs : list seg) : list seg * bool :=
  let s := upperStr segs in
  if ends_with s (js "LY") || ends_with s (js "LEY") || ends_with s (js "TY") then (segs, false)
  else if ends_with s (js "Y") && (1 <=? length segs)%nat
  then (spliceSegs segs (length segs - 1) (length segs) (segFromString (js "EH") false), true)
  else (segs, false).

(** [applyEndingAH]: returns the new segments and [changed]. *)
Definition applyEndingAH (segs : list seg) : list seg * bool :=
  let s := upperStr segs in
  if ends_with s (js "ER") || ends_with s (js "UR")
  then (spliceSegs segs (length segs - 2) (length segs) (segFromString (js "AH") false), true)
  else if ends_with s (js "A")
  then (spliceSegs segs (length segs - 1) (length segs) (segFromString (js "AH") false), true)
  else (segs, false).

(** ** Prefix rules *)

Definition replaceStarting (x y : Z) (rep : list Z) (segs : list seg) : option (list seg) :=
  if (2 <=? length segs)%nat then
    let* a := nth_error segs 0 in
    let* b := nth_error segs 1 in
    if (upperA (ch a) =? x) && (upperA (ch b) =? y)
    then Some (spliceSegs segs 0 2 (segFromString rep false))
    else Some segs
  else Some segs.

Definition replaceStartingSWWithSAW (segs : list seg) : option (list seg) := replaceStarting 83 87 (js "SAW") segs.
Definition replaceStartingSNWithSAN (segs : list seg) : option (list seg) := replaceStarting 83 78 (js "SAN") segs.

Definition applyPrefixREToRO (segs : list seg) : option (list seg) :=
  let s := segToString segs in
  let lower := lows s in
  if list_eqb lower (js "re") then Some segs
  else if starts_with lower (js "re") && (3 <=? length s)%nat then
    let* c := nth_error s 2 in
    let third := upperA c in
    if isVowel third then Some (spliceSegs segs 0 2 (segFromString (js "ro") false))
    else Some segs
  else Some segs.

(** ** Consonant cluster insertion *)

Definition applyClusterInsertions (segs : list seg) : option (list seg) :=
  let rule2 :=
    if (2 <=? length segs)%nat then
      let* s0 := nth_error segs 0 in
      let* s1 := nth_error segs 1 in
      let c1 := upperA (ch s1) in
      if isConsonantLetter (ch s0) && ((c1 =? 82) || (c1 =? 76))
      then Some (spliceSegs segs 1 1 (segFromString (js "A") false))
      else Some segs
    else Some segs in
  if (3 <=? length segs)%nat then
    let* s0 := nth_error segs 0 in
    let* s1 := nth_error segs 1 in
    let* s2 := nth_error segs 2 in
    if isConsonantLetter (ch s0) && isConsonantLetter (ch s1) && (upperA (ch s2) =? 82)
    then Some (spliceSegs segs 2 2 (segFromString (js "A") false))
    else rule2
  else rule2.

(** ** Vowel swaps *)

Fixpoint origVowelIdx_from (i : nat) (segs : list seg) : list nat :=
  match segs with
  | [] => []
  | s :: rest =>
      if origin s && isVowel (upperA (ch s)) then i :: origVowelIdx_from (S i) rest
      else origVowelIdx_from (S i) rest
  end.
Definition origVowelIdx (segs : list seg) : list nat := origVowelIdx_from 0 segs.

Definition protectSet (idx : list nat) (endingChangedToAH : bool) : list nat :=
  if negb endingChangedToAH && (1 <=? length idx)%nat then
    nth (length idx - 1) idx 0%nat
      :: (if (length idx =? 4)%nat then [nth (length idx - 2) idx 0%nat] else [])
  else [].

(** One iteration of the swap loop at index [i]; [next] is [segs[i + 1]]. *)
Definition swapStep (boundary : nat) (prot : list nat) (i : nat) (s : seg) (next : option seg) : seg :=
  if (boundary <=? i)%nat then s
  else if negb (origin s) then s
  else if negb (isSwappable (upperA (ch s))) then s
  else if existsb (Nat.eqb i) prot then s
  else if match next with Some n => isVowel (upperA (ch n)) | None => false end then s
  else Seg 111 false.

(** Iteration [i] writes only [segs[i]], so [segs[i + 1]] is still the
    segment from before the loop when iteration [i] reads it. *)
Fixpoint swapLoop (boundary : nat) (prot : list nat) (i : nat) (segs : list seg) : list seg :=
  match segs with
  | [] => []
  | s :: rest => swapStep boundary prot i s (hd_error rest) :: swapLoop boundary prot (S i) rest
  end.

Definition applyVowelSwaps (segs : list seg) (endingChangedToAH : bool) : list seg :=
  let boundary := protectedSuffixStartIndex segs in
  let prot := protectSet (origVowelIdx segs) endingChangedToAH in
  swapLoop boundary prot 0 segs.

(** ** Word transformation *)

(** Suffix stages 1-5, up to the ending-AH rule. *)
Definition suffixBeforeEndingAH (segs : list seg) : list seg :=
  let segs := replaceAllERWithAH segs in
  let segs := replaceAllIRWithAR segs in
  let segs := fst (replaceEndingTION segs) in
  let segs := fst (replaceEndingTY segs) in
  replaceEndingLY segs.

(** 2) Suffix transforms, returning [endingChangedToAH]. *)
Definition suffixTransforms (segs : list seg) : list seg * bool :=
  let segs := suffixBeforeEndingAH segs in
  let (segs, endingChangedToAH) := applyEndingAH segs in
  let segs := fst (replaceEndingAY segs) in
  let segs := fst (replaceEndingYToEH segs) in
  (segs, endingChangedToAH).

(** 3) Prefix transforms. *)
Definition prefixTransforms (segs : list seg) : option (list seg) :=
  let* segs := replaceStartingSNWithSAN segs in
  let* segs := replaceStartingSWWithSAW segs in
  applyPrefixREToRO segs.

(** The segments and flag handed to the vowel-swap stage. *)
Definition preSwap (part : list Z) : option (list seg * bool) :=
  let (segs, endingChangedToAH) := suffixTransforms (segFromString part true) in
  let* segs := prefixTransforms segs in
  let* segs := applyClusterInsertions segs in
  Some (segs, endingChangedToAH).

Definition transformWordPart (part : list Z) : option (list Z) :=
  let (hit, o) := applyExceptions part in
  if hit then Some (ups o)
  else
    let* p := preSwap part in
    let (segs, endingChangedToAH) := p in
    let segs := applyVowelSwaps segs endingChangedToAH in
    Some (ups (segToString segs)).

(** ** Tokens *)

Definition isSep (c : Z) : bool := (c =? 45) || (c =? 39).

(** [token.split(/([-'])/)]: pieces between separators, with each
    separator kept as a piece of its own. *)
Fixpoint split_keep (s : list Z) : list (list Z) :=
  match s with
  | [] => [[]]
  | c :: r =>
      if isSep c then [] :: [c] :: split_keep r
      else match split_keep r with
           | p :: ps => (c :: p) :: ps
           | [] => [[c]]
           end
  end.

Fixpoint mapM {A B} (f : A -> option B) (l : list A) : option (list B) :=
  match l with
  | [] => Some []
  | x :: r => let* y := f x in let* ys := mapM f r in Some (y :: ys)
  end.

Definition transformPiece (p : list Z) : option (list Z) :=
  if list_eqb p [45] || list_eqb p [39] then Some p else transformWordPart p.

Definition transformWordToken (token : list Z) : option (list Z) :=
  let* parts := mapM transformPiece (split_keep token) in
  Some (concat parts).

(** ** Whole text *)

(** The input cut into the matches of the global regex
    [/[A-Za-z]+(?:[-'][A-Za-z]+)*/g] ([Tok]) and the text between them
    ([Gap], one character at a time). *)
Inductive span := Gap (g : list Z) | Tok (t : list Z).

Definition span_text (p : span) : list Z := match p with Gap g => g | Tok t => t end.

(** Scanner states: between matches; inside a match with letters [tok] so
    far; after a separator [d] that ends a match unless a letter follows. *)
Inductive scan_state := SGap | SWord (tok : list Z) | SSep (tok : list Z) (d : Z).

Fixpoint scan_from (st : scan_state) (s : list Z) : list span :=
  match s with
  | [] =>
      match st with
      | SGap => []
      | SWord t => [Tok t]
      | SSep t d => [Tok t; Gap [d]]
      end
  | c :: r =>
      match st with
      | SGap => if isLetter c then scan_from (SWord [c]) r else Gap [c] :: scan_from SGap r
      | SWord t =>
          if isLetter c then scan_from (SWord (t ++ [c])) r
          else if isSep c then scan_from (SSep t c) r
          else Tok t :: Gap [c] :: scan_from SGap r
      | SSep t d =>
          if isLetter c then scan_from (SWord (t ++ [d; c])) r
          else Tok t :: Gap [d] :: Gap [c] :: scan_from SGap r
      end
  end.

Definition scan (input : list Z) : list span := scan_from SGap input.

Definition span_out (p : span) : option (list Z) :=
  match p with Gap g => Some g | Tok t => transformWordToken t end.

Definition convertText (up : Z -> list Z) (input : list Z) : option (list Z) :=
  let* outs := mapM span_out (scan input) in
  Some (toUpperCase up (concat outs)).

(** A case map exact on the Latin-1 block ([ß] -> [SS], [µ] -> U+039C,
    [ÿ] -> U+0178); used for concrete runs on Latin-1 text. *)
Definition upperLatin1 (c : Z) : list Z :=
  if (97 <=? c) && (c <=? 122) then [c - 32]
  else if c =? 181 then [924]
  else if c =? 223 then [83; 83]
  else if c =? 255 then [376]
  else if (224 <=? c) && (c <=? 254) && negb (c =? 247) then [c - 32]
  else [c].

(** ** The variant of [src/app.js]

    [app.js] shares the segment helpers, the suffix, prefix, cluster and
    vowel-swap rules, [transformWordToken] and [convertText] with the
    version above.  It differs in its exception table, in having the
    starting-U rule [applyStartingUYoo], in lacking the IR, AY, SN and SW
    rules, and in its pipeline order. *)
Module AppJs.

Definition EXCEPTIONS : list exception :=
  [ Exc (Regex [js "you"; js "your"]) (OutFixed (js "YA"));
    Exc (Regex [js "the"]) (OutFixed (js "THA"));
    Exc (Regex [js "for"]) (OutFixed (js "FA"));
    Exc (Regex [js "please"]) (OutFixed (js "PALEASE"));
    Exc (Regex [js "deadline"]) (OutFixed (js "DODLINE"));
    Exc (Regex [js "mistakes"]) (OutFixed (js "MOSTAKES"));
    Exc (Regex [js "aminur"]) (OutFixed (js "AMINAH"));
    Exc (Regex [js "date"]) (OutFixed (js "DATE"));
    Exc (Regex [js "name"]) (OutFixed (js "NAME"));
    Exc (Regex [js "set"]) (OutFixed (js "SOT")) ].

Definition applyExceptions (wordPart : list Z) : bool * list Z :=
  applyExceptions_in EXCEPTIONS wordPart.

(** [applyStartingUYoo]: U followed by one of N, S, F, T becomes YAU. *)
Definition applyStartingUYoo (segs : list seg) : option (list seg) :=
  if (2 <=? length segs)%nat then
    let* s0 := nth_error segs 0 in
    let* s1 := nth_error segs 1 in
    let first := upperA (ch s0) in
    let next := upperA (ch s1) in
    if (first =? 85) && existsb (Z.eqb next) [78; 83; 70; 84]
    then Some (spliceSegs segs 0 1 (segFromString (js "YAU") false))
    else Some segs
  else Some segs.

(** Suffix transforms: ER, TION, TY, LY, the ending AH, final Y. *)
Definition suffixTransforms (segs : list seg) : list seg * bool :=
  let segs := replaceAllERWithAH segs in
  let segs := fst (replaceEndingTION segs) in
  let segs := fst (replaceEndingTY segs) in
  let segs := replaceEndingLY segs in
  let (segs, endingChangedToAH) := applyEndingAH segs in
  let segs := fst (replaceEndingYToEH segs) in
  (segs, endingChangedToAH).

Definition prefixTransforms (segs : list seg) : option (list seg) :=
  let* segs := applyStartingUYoo segs in
  applyPrefixREToRO segs.

Definition preSwap (part : list Z) : option (list seg * bool) :=
  let (segs, endingChangedToAH) := suffixTransforms (segFromString part true) in
  let* segs := prefixTransforms segs in
  let* segs := applyClusterInsertions segs in
  Some (segs, endingChangedToAH).

Definition transformWordPart (part : list Z) : option (list Z) :=
  let (hit, o) := applyExceptions part in
  if hit then Some (ups o)
  else
    let* p := preSwap part in
    let (segs, endingChangedToAH) := p in
    let segs := applyVowelSwaps segs endingChangedToAH in
    Some (ups (segToString segs)).

Definition transformPiece (p : list Z) : option (list Z) :=
  if list_eqb p [45] || list_eqb p [39] then Some p else transformWordPart p.

Definition transformWordToken (token : list Z) : option (list Z) :=
  let* parts := mapM transformPiece (split_keep token) in
  Some (concat parts).

Definition span_out (p : span) : option (list Z) :=
  match p with Gap g => Some g | Tok t => transformWordToken t end.

Definition convertText (up : Z -> list Z) (input : list Z) : option (list Z) :=
  let* outs := mapM span_out (scan input) in
  Some (toUpperCase up (concat outs)).

End AppJs.

(** ** Predicates used by the proofs *)

Definition len_desc (a b : list Z) : Prop := (length b <= length a)%nat.

(** Segments a stage may add: letters marked origin=false. *)
Definition synth (s : seg) : Prop := origin s = false /\ isLetter (ch s) = true.
Definition derived (out segs : list seg) : Prop :=
  forall s, In s out -> In s segs \/ synth s.

Definition isUpperLetter (c : Z) : bool := (65 <=? c) && (c <=? 90).

Definition grows (out segs : list seg) : Prop := (length segs <= length out)%nat.

(** Every decision of the pipeline reads a segment through [upperA] (or
    [lowerA], which agrees on both cases) and its [origin]; [norm] keeps
    exactly that. *)
Definition nseg (s : seg) : seg := Seg (upperA (ch s)) (origin s).
Definition norm (segs : list seg) : list seg := map nseg segs.
Definition normp (p : list seg * bool) : list seg * bool := (norm (fst p), snd p).

Definition fixed_out (ex : exception) : bool :=
  match out ex with OutFixed _ => true | OutFn _ => false end.

Definition st_rel (st1 st2 : scan_state) : Prop :=
  match st1, st2 with
  | SGap, SGap => True
  | SWord t1, SWord t2 => ups t1 = ups t2
  | SSep t1 d1, SSep t2 d2 => ups t1 = ups t2 /\ d1 = d2
  | _, _ => False
  end.

Definition span_rel (p q : span) : Prop :=
  match p, q with
  | Gap g1, Gap g2 => g1 = g2
  | Tok t1, Tok t2 => ups t1 = ups t2
  | _, _ => False
  end.

(** * Basic facts *)

Lemma list_eqb_eq : forall a b, list_eqb a b = true <-> a = b.
Proof.
  induction a as [|x a IH]; destruct b as [|y b]; simpl; split; intro H;
    try reflexivity; try discriminate.
  - apply andb_true_iff in H as [H1 H2]. apply Z.eqb_eq in H1.
    apply IH in H2. subst. reflexivity.
  - injection H as -> ->. rewrite Z.eqb_refl. simpl. apply IH. reflexivity.
Qed.

Lemma list_eqb_refl : forall a, list_eqb a a = true.
Proof. intro a. apply list_eqb_eq. reflexivity. Qed.

Lemma upper_ascii_ok_spec : forall up, upper_ascii_ok up = true ->
  forall c, 0 <= c < 128 -> up c = [upperA c].
Proof.
  intros up H c Hc. unfold upper_ascii_ok in H.
  rewrite forallb_forall in H.
  specialize (H (Z.to_nat c)).
  rewrite Z2Nat.id in H by lia.
  apply list_eqb_eq, H, in_seq. lia.
Qed.

Definition isAscii (c : Z) : bool := (0 <=? c) && (c <? 128).

Lemma toUpperCase_ascii : forall up s, upper_ascii_ok up = true ->
  forallb isAscii s = true -> toUpperCase up s = ups s.
Proof.
  intros up s Hup. induction s as [|c s IH]; simpl; intro Hs; [reflexivity|].
  apply andb_true_iff in Hs as [Hc Hs]. unfold isAscii in Hc.
  apply andb_true_iff in Hc as [H0 H1].
  rewrite (upper_ascii_ok_spec up Hup c) by lia.
  rewrite IH by exact Hs. reflexivity.
Qed.

Lemma convertText_ascii_out : forall up input outs, upper_ascii_ok up = true ->
  mapM span_out (scan input) = Some outs ->
  forallb isAscii (concat outs) = true ->
  convertText up input = Some (ups (concat outs)).
Proof.
  intros up input outs Hup Hm Ha. unfold convertText. rewrite Hm. simpl.
  rewrite toUpperCase_ascii by assumption. reflexivity.
Qed.

Lemma upper_ascii_ok_upperLatin1 : upper_ascii_ok upperLatin1 = true.
Proof. vm_compute. reflexivity. Qed.

(** Runs [convertText] on an input whose output is ASCII. *)
Ltac ascii_run Hup :=
  erewrite convertText_ascii_out;
    [ idtac | exact Hup | vm_compute; reflexivity | vm_compute; reflexivity ];
  vm_compute; reflexivity.

(** * C5: [convert "snake"] *)

(** C5 (counterexample): with [toUpperCase] exact on this input, the
    conversion of "snake" is not "SANAKE". *)
Lemma convert_snake_not_SANAKE : convertText upperLatin1 (js "snake") <> Some (js "SANAKE").
Proof. vm_compute. discriminate. Qed.

(** C5 (amended): for every case map that is the ASCII one on ASCII,
    converting "snake" gives "SANOKE": SN becomes SAN and the vowel-swap
    stage turns the original, unprotected A into O. *)
Theorem convert_snake : forall up, upper_ascii_ok up = true ->
  convertText up (js "snake") = Some (js "SANOKE").
Proof.
  intros up Hup. ascii_run Hup.
Qed.

Lemma convert_snake_witness : convertText upperLatin1 (js "snake") = Some (js "SANOKE").
Proof. apply (convert_snake upperLatin1). vm_compute. reflexivity. Defined.

(** * C6: [convert "information"] *)

(** C6 (counterexample): the conversion of "information" is not
    "INFORMASHAN". *)
Lemma convert_information_not_INFORMASHAN :
  convertText upperLatin1 (js "information") <> Some (js "INFORMASHAN").
Proof. vm_compute. discriminate. Qed.

(** C6 (amended): converting "information" gives "ONFORMASHAN": TION
    becomes SHAN, the leading original I (unprotected, before the SHAN
    boundary, not followed by a vowel) is swapped to O, and the last original
    vowel A is tail-protected. *)
Theorem convert_information : forall up, upper_ascii_ok up = true ->
  convertText up (js "information") = Some (js "ONFORMASHAN").
Proof. intros up Hup. ascii_run Hup. Qed.

Lemma convert_information_witness :
  convertText upperLatin1 (js "information") = Some (js "ONFORMASHAN").
Proof. apply (convert_information upperLatin1). vm_compute. reflexivity. Defined.

(** * C7: [convert "don't stop"] *)

(** C7 (counterexample): the conversion of "don't stop" is not
    "DAN'T STAP". *)
Lemma convert_dont_stop_not_DANT_STAP :
  convertText upperLatin1 (js "don't stop") <> Some (js "DAN'T STAP").
Proof. vm_compute. discriminate. Qed.

(** C7 (amended): converting "don't stop" gives "DON'T STOP": the parts
    "don", "t" and "stop" are transformed independently (O never swaps),
    and the apostrophe (index 3) and the space (index 5) keep their
    positions. *)
Theorem convert_dont_stop : forall up, upper_ascii_ok up = true ->
  convertText up (js "don't stop") = Some (js "DON'T STOP") /\
  nth_error (js "don't stop") 3 = nth_error (js "DON'T STOP") 3 /\
  nth_error (js "don't stop") 5 = nth_error (js "DON'T STOP") 5 /\
  transformWordToken (js "don't") = Some (js "DON'T") /\
  transformWordPart (js "don") = Some (js "DON") /\
  transformWordPart (js "stop") = Some (js "STOP").
Proof.
  intros up Hup. split; [ascii_run Hup|].
  repeat split; vm_compute; reflexivity.
Qed.

Lemma convert_dont_stop_witness :
  convertText upperLatin1 (js "don't stop") = Some (js "DON'T STOP").
Proof. apply (convert_dont_stop upperLatin1). vm_compute. reflexivity. Defined.

(** * C2: exception priority *)

Lemma applyExceptions_in_first : forall tbl part i ex,
  nth_error tbl i = Some ex ->
  exc_matches ex part = true ->
  forallb (fun e => negb (exc_matches e part)) (firstn i tbl) = true ->
  applyExceptions_in tbl part = (true, exc_output ex part).
Proof.
  induction tbl as [|e tbl IH]; intros part i ex Hi Hm Hb.
  - destruct i; discriminate.
  - destruct i as [|i]; simpl in *.
    + injection Hi as ->. rewrite Hm. reflexivity.
    + apply andb_true_iff in Hb as [He Hb].
      destruct (exc_matches e part); [discriminate|].
      exact (IH part i ex Hi Hm Hb).
Qed.

(** C2: if entry [i] of the exception table is the first entry matching the
    word-part, [transformWordPart] returns that entry's output uppercased;
    none of the later stages contribute. *)
Theorem transformWordPart_exception : forall part i ex,
  nth_error EXCEPTIONS i = Some ex ->
  exc_matches ex part = true ->
  forallb (fun e => negb (exc_matches e part)) (firstn i EXCEPTIONS) = true ->
  transformWordPart part = Some (ups (exc_output ex part)).
Proof.
  intros part i ex Hi Hm Hb. unfold transformWordPart, applyExceptions.
  rewrite (applyExceptions_in_first EXCEPTIONS part i ex Hi Hm Hb). reflexivity.
Qed.

Lemma transformWordPart_exception_witness :
  transformWordPart (js "the") = Some (js "THA").
Proof.
  apply (transformWordPart_exception (js "the") 3
           (Exc (Regex [js "the"]) (OutFixed (js "THA"))));
    vm_compute; reflexivity.
Defined.

(** * C4: RE -> RO *)

(** C4: the RE->RO rule, as the spec words it: no change when the part
    lowercases to exactly "re"; otherwise, when it starts with "re"
    (case-insensitively), has at least 3 characters and its 3rd character
    is one of A/E/I/O/U, the first two segments become the origin=false
    segments "ro"; no change in every other case. *)
Theorem applyPrefixREToRO_spec : forall segs,
  applyPrefixREToRO segs =
  Some (let s := segToString segs in
        if list_eqb (lows s) (js "re") then segs
        else if starts_with (lows s) (js "re") && (3 <=? length s)%nat
                && isVowel (upperA (nth 2 s 0))
        then segFromString (js "ro") false ++ skipn 2 segs
        else segs).
Proof.
  intro segs. unfold applyPrefixREToRO. cbv zeta.
  destruct (list_eqb (lows (segToString segs)) (js "re")); [reflexivity|].
  destruct (starts_with (lows (segToString segs)) (js "re")); [|reflexivity].
  rewrite !andb_true_l.
  destruct (3 <=? length (segToString segs))%nat eqn:Hl; [|reflexivity].
  rewrite andb_true_l. apply Nat.leb_le in Hl.
  destruct (nth_error (segToString segs) 2) as [c|] eqn:Hn; unfold bind.
  - rewrite (nth_error_nth _ _ _ Hn).
    destruct (isVowel (upperA c)); reflexivity.
  - apply nth_error_None in Hn. lia.
Qed.

(** * C3: tail protection with four original vowels *)

Lemma swapLoop_nth : forall b prot l i j,
  nth_error (swapLoop b prot i l) j =
  match nth_error l j with
  | Some s => Some (swapStep b prot (i + j) s (nth_error l (S j)))
  | None => None
  end.
Proof.
  intros b prot. induction l as [|s l IH]; intros i j; [destruct j; reflexivity|].
  destruct j as [|j]; simpl.
  - rewrite Nat.add_0_r. destruct l; reflexivity.
  - rewrite IH. replace (S i + j)%nat with (i + S j)%nat by lia. reflexivity.
Qed.

Lemma swapStep_protected : forall b prot i s n,
  existsb (Nat.eqb i) prot = true -> swapStep b prot i s n = s.
Proof.
  intros b prot i s n H. unfold swapStep. rewrite H.
  destruct (b <=? i)%nat, (origin s), (isSwappable (upperA (ch s))); reflexivity.
Qed.

Lemma origVowelIdx_from_spec : forall l i k, In k (origVowelIdx_from i l) ->
  (i <= k)%nat /\ exists s, nth_error l (k - i) = Some s /\
     origin s = true /\ isVowel (upperA (ch s)) = true.
Proof.
  induction l as [|s l IH]; intros i k H; simpl in H; [contradiction|].
  destruct (origin s && isVowel (upperA (ch s))) eqn:E.
  - destruct H as [<- | H].
    + split; [lia|]. exists s. rewrite Nat.sub_diag.
      apply andb_true_iff in E. tauto.
    + destruct (IH (S i) k H) as [Hk [s' Hs']]. split; [lia|].
      exists s'. replace (k - i)%nat with (S (k - S i)) by lia. exact Hs'.
  - destruct (IH (S i) k H) as [Hk [s' Hs']]. split; [lia|].
    exists s'. replace (k - i)%nat with (S (k - S i)) by lia. exact Hs'.
Qed.

(** The character at [k] is still the original vowel in the output. *)
Definition kept_vowel (segs : list seg) (out : list Z) (k : nat) : Prop :=
  exists s, nth_error segs k = Some s /\ origin s = true /\
            isVowel (upperA (ch s)) = true /\
            nth_error out k = Some (upperA (ch s)).

Lemma vowelSwaps_keep_protected : forall segs flag k,
  In k (protectSet (origVowelIdx segs) flag) -> In k (origVowelIdx segs) ->
  kept_vowel segs (ups (segToString (applyVowelSwaps segs flag))) k.
Proof.
  intros segs flag k Hp Hk.
  destruct (origVowelIdx_from_spec segs 0 k Hk) as [_ [s [Hs [Ho Hv]]]].
  rewrite Nat.sub_0_r in Hs.
  exists s. split; [exact Hs|]. split; [exact Ho|]. split; [exact Hv|].
  unfold ups, segToString, applyVowelSwaps. rewrite !nth_error_map, swapLoop_nth, Hs.
  simpl. rewrite swapStep_protected; [reflexivity|].
  apply existsb_exists. exists k. split; [exact Hp | apply Nat.eqb_refl].
Qed.

(** C3: when the word-part reaches the vowel-swap stage with exactly four
    original (origin=true) A/E/I/O/U vowels and [endingChangedToAH] false,
    the third and fourth of them (the last two) come out of
    [transformWordPart] unswapped: the output has the original vowel,
    uppercased, at their positions. *)
Theorem vowelSwaps_last_two_kept : forall part segs out,
  fst (applyExceptions part) = false ->
  preSwap part = Some (segs, false) ->
  length (origVowelIdx segs) = 4%nat ->
  transformWordPart part = Some out ->
  kept_vowel segs out (nth 2 (origVowelIdx segs) 0%nat) /\
  kept_vowel segs out (nth 3 (origVowelIdx segs) 0%nat).
Proof.
  intros part segs out Hex Hpre Hlen Ht.
  unfold transformWordPart in Ht.
  destruct (applyExceptions part) as [hit o]. simpl in Hex. subst hit.
  rewrite Hpre in Ht. simpl in Ht. injection Ht as <-.
  assert (Hprot : protectSet (origVowelIdx segs) false =
     [nth 3 (origVowelIdx segs) 0%nat; nth 2 (origVowelIdx segs) 0%nat]).
  { unfold protectSet. rewrite Hlen. reflexivity. }
  split; apply vowelSwaps_keep_protected;
    try (rewrite Hprot; simpl; tauto);
    apply nth_In; lia.
Qed.

Lemma vowelSwaps_last_two_kept_witness :
  exists segs out,
    preSwap (js "grammatical") = Some (segs, false) /\
    transformWordPart (js "grammatical") = Some out /\
    kept_vowel segs out (nth 2 (origVowelIdx segs) 0%nat) /\
    kept_vowel segs out (nth 3 (origVowelIdx segs) 0%nat).
Proof.
  eexists; eexists.
  split; [vm_compute; reflexivity|]. split; [vm_compute; reflexivity|].
  apply (vowelSwaps_last_two_kept (js "grammatical")); vm_compute; reflexivity.
Defined.

(** * C8: totality *)

Ltac close_ifs :=
  repeat match goal with
         | |- context [if ?b then _ else _] => destruct b
         end; eauto.

Lemma replaceStarting_total : forall x y rep segs, exists r, replaceStarting x y rep segs = Some r.
Proof.
  intros x y rep [|a [|b rest]]; unfold replaceStarting; simpl; close_ifs.
Qed.

Lemma applyPrefixREToRO_total : forall segs, exists r, applyPrefixREToRO segs = Some r.
Proof. intro segs. rewrite applyPrefixREToRO_spec. eauto. Qed.

Lemma applyClusterInsertions_total : forall segs, exists r, applyClusterInsertions segs = Some r.
Proof.
  intros [|a [|b [|c rest]]]; unfold applyClusterInsertions; simpl; close_ifs.
Qed.

Lemma preSwap_total : forall part, exists p, preSwap part = Some p.
Proof.
  intro part. unfold preSwap.
  destruct (suffixTransforms (segFromString part true)) as [segs flag].
  unfold prefixTransforms, replaceStartingSNWithSAN, replaceStartingSWWithSAW.
  destruct (replaceStarting_total 83 78 (js "SAN") segs) as [s1 H1]. rewrite H1. simpl.
  destruct (replaceStarting_total 83 87 (js "SAW") s1) as [s2 H2]. rewrite H2. simpl.
  destruct (applyPrefixREToRO_total s2) as [s3 H3]. rewrite H3. simpl.
  destruct (applyClusterInsertions_total s3) as [s4 H4]. rewrite H4. simpl. eauto.
Qed.

Lemma transformWordPart_total : forall part, exists o, transformWordPart part = Some o.
Proof.
  intro part. unfold transformWordPart.
  destruct (applyExceptions part) as [[|] o]; [eauto|].
  destruct (preSwap_total part) as [[segs flag] H]. rewrite H. simpl. eauto.
Qed.

Lemma mapM_total : forall {A B} (f : A -> option B) l,
  (forall x, exists y, f x = Some y) -> exists ys, mapM f l = Some ys.
Proof.
  intros A B f l Hf. induction l as [|x l IH]; simpl; [eauto|].
  destruct (Hf x) as [y Hy]. destruct IH as [ys Hys].
  rewrite Hy. simpl. rewrite Hys. simpl. eauto.
Qed.

Lemma transformWordToken_total : forall t, exists o, transformWordToken t = Some o.
Proof.
  intro t. unfold transformWordToken.
  destruct (mapM_total transformPiece (split_keep t)) as [ps Hps].
  - intro p. unfold transformPiece.
    destruct (list_eqb p [45] || list_eqb p [39]); [eauto | apply transformWordPart_total].
  - rewrite Hps. simpl. eauto.
Qed.

(** C8: [convertText] returns a string on every input (empty, separator-only
    and letter-free inputs included): none of its guarded reads faults. *)
Theorem convertText_total : forall up input, exists out, convertText up input = Some out.
Proof.
  intros up input. unfold convertText.
  destruct (mapM_total span_out (scan input)) as [outs Houts].
  - intros [g|t]; simpl; [eauto | apply transformWordToken_total].
  - rewrite Houts. simpl. eauto.
Qed.

(** * C9: the ER branch of the ending-AH rule is unreachable *)

(** No (uppercased) E immediately followed by R. *)
Fixpoint noER (l : list Z) : bool :=
  match l with
  | a :: ((b :: _) as r) => negb ((a =? 69) && (b =? 82)) && noER r
  | _ => true
  end.

Lemma noER_tail : forall a l, noER (a :: l) = true -> noER l = true.
Proof.
  intros a [|b l] H; [reflexivity|]. simpl in H. apply andb_true_iff in H. tauto.
Qed.

Lemma noER_app : forall l1 l2, noER l1 = true -> noER l2 = true ->
  negb ((last l1 0 =? 69) && (hd 0 l2 =? 82)) = true -> noER (l1 ++ l2) = true.
Proof.
  induction l1 as [|a l1 IH]; intros l2 H1 H2 H; [exact H2|].
  destruct l1 as [|b l1].
  - simpl. destruct l2 as [|c l2]; [reflexivity|]. simpl in H |- *.
    rewrite H. exact H2.
  - change ((a :: b :: l1) ++ l2) with (a :: (b :: l1) ++ l2).
    simpl in H1. apply andb_true_iff in H1 as [Hab H1].
    change (noER (a :: b :: (l1 ++ l2)) = true).
    cbn [noER]. rewrite Hab. simpl.
    apply (IH l2 H1 H2). exact H.
Qed.

Lemma noER_app_l : forall l1 l2, noER (l1 ++ l2) = true -> noER l1 = true.
Proof.
  induction l1 as [|a l1 IH]; intros l2 H; [reflexivity|].
  destruct l1 as [|b l1]; [reflexivity|].
  simpl in H |- *. apply andb_true_iff in H as [Hab H].
  rewrite Hab. simpl. exact (IH l2 H).
Qed.

Lemma noER_app_r : forall l1 l2, noER (l1 ++ l2) = true -> noER l2 = true.
Proof.
  induction l1 as [|a l1 IH]; intros l2 H; [exact H|].
  apply IH. exact (noER_tail a _ H).
Qed.

Lemma upperStr_app : forall l1 l2, upperStr (l1 ++ l2) = upperStr l1 ++ upperStr l2.
Proof. intros. unfold upperStr, ups, segToString. rewrite !map_app. reflexivity. Qed.

Lemma upperStr_cons : forall a l, upperStr (a :: l) = upperA (ch a) :: upperStr l.
Proof. reflexivity. Qed.

Lemma upperStr_firstn : forall k l, upperStr (firstn k l) = firstn k (upperStr l).
Proof. intros. unfold upperStr, ups, segToString. rewrite !firstn_map. reflexivity. Qed.

Lemma replaceAllPair_hd : forall x y rep b rest, rep <> [] ->
  hd 0 (upperStr (replaceAllPair x y rep (b :: rest))) = upperA (ch b) \/
  hd 0 (upperStr (replaceAllPair x y rep (b :: rest))) = hd 0 (ups rep).
Proof.
  intros x y rep b [|c rest] Hr; [left; reflexivity|].
  change (replaceAllPair x y rep (b :: c :: rest)) with
    (if (upperA (ch b) =? x) && (upperA (ch c) =? y)
     then segFromString rep false ++ replaceAllPair x y rep rest
     else b :: replaceAllPair x y rep (c :: rest)).
  destruct ((upperA (ch b) =? x) && (upperA (ch c) =? y)); [right | left; reflexivity].
  rewrite upperStr_app. destruct rep as [|r rep]; [contradiction|]. reflexivity.
Qed.

Lemma replaceAllERWithAH_noER : forall segs, noER (upperStr (replaceAllERWithAH segs)) = true.
Proof.
  unfold replaceAllERWithAH.
  assert (forall n segs, (length segs <= n)%nat ->
            noER (upperStr (replaceAllPair 69 82 (js "AH") segs)) = true) as Hn.
  { induction n as [|n IH]; intros segs Hl.
    - destruct segs; [reflexivity | simpl in Hl; lia].
    - destruct segs as [|a [|b rest]]; try reflexivity.
      change (replaceAllPair 69 82 (js "AH") (a :: b :: rest)) with
        (if (upperA (ch a) =? 69) && (upperA (ch b) =? 82)
         then segFromString (js "AH") false ++ replaceAllPair 69 82 (js "AH") rest
         else a :: replaceAllPair 69 82 (js "AH") (b :: rest)).
      simpl in Hl.
      destruct ((upperA (ch a) =? 69) && (upperA (ch b) =? 82)) eqn:Eab.
      + rewrite upperStr_app. apply noER_app; [reflexivity | apply IH; lia | reflexivity].
      + rewrite upperStr_cons. apply (noER_app [upperA (ch a)]); [reflexivity | apply IH; simpl; lia|].
        destruct (replaceAllPair_hd 69 82 (js "AH") b rest) as [Hh|Hh]; [discriminate| |];
          simpl last; rewrite Hh; [rewrite Eab; reflexivity | rewrite andb_false_r; reflexivity]. }
  intro segs. apply (Hn (length segs)). lia.
Qed.

Lemma replaceAllIRWithAR_noER : forall segs, noER (upperStr segs) = true ->
  noER (upperStr (replaceAllIRWithAR segs)) = true.
Proof.
  unfold replaceAllIRWithAR.
  assert (forall n segs, (length segs <= n)%nat -> noER (upperStr segs) = true ->
            noER (upperStr (replaceAllPair 73 82 (js "AR") segs)) = true) as Hn.
  { induction n as [|n IH]; intros segs Hl Hs.
    - destruct segs; [reflexivity | simpl in Hl; lia].
    - destruct segs as [|a [|b rest]]; try reflexivity.
      change (replaceAllPair 73 82 (js "AR") (a :: b :: rest)) with
        (if (upperA (ch a) =? 73) && (upperA (ch b) =? 82)
         then segFromString (js "AR") false ++ replaceAllPair 73 82 (js "AR") rest
         else a :: replaceAllPair 73 82 (js "AR") (b :: rest)).
      simpl in Hl. rewrite !upperStr_cons in Hs.
      pose proof (noER_tail _ _ Hs) as Hs1. pose proof (noER_tail _ _ Hs1) as Hs2.
      destruct ((upperA (ch a) =? 73) && (upperA (ch b) =? 82)) eqn:Eab.
      + rewrite upperStr_app. apply noER_app; [reflexivity | apply IH; [lia | exact Hs2] | reflexivity].
      + rewrite upperStr_cons. apply (noER_app [upperA (ch a)]);
          [reflexivity | apply IH; [simpl; lia | rewrite upperStr_cons; exact Hs1] |].
        simpl in Hs. apply andb_true_iff in Hs as [Hab _].
        destruct (replaceAllPair_hd 73 82 (js "AR") b rest) as [Hh|Hh]; [discriminate| |];
          simpl last; rewrite Hh; [exact Hab | rewrite andb_false_r; reflexivity]. }
  intros segs Hs. apply (Hn (length segs)); [lia | exact Hs].
Qed.

Lemma segToString_segFromString : forall s o, segToString (segFromString s o) = s.
Proof. induction s as [|c s IH]; intro o; simpl; [reflexivity | rewrite IH; reflexivity]. Qed.

(** Replacing a tail by new segments not starting with R keeps [noER]. *)
Lemma splice_end_noER : forall segs k rep,
  noER (upperStr segs) = true -> noER (ups rep) = true -> hd 0 (ups rep) <> 82 ->
  noER (upperStr (spliceSegs segs k (length segs) (segFromString rep false))) = true.
Proof.
  intros segs k rep Hs Hr Hh. unfold spliceSegs.
  rewrite skipn_all, app_nil_r, upperStr_app, upperStr_firstn.
  apply noER_app.
  - apply (noER_app_l _ (skipn k (upperStr segs))). rewrite firstn_skipn. exact Hs.
  - unfold upperStr. rewrite segToString_segFromString. exact Hr.
  - unfold upperStr. rewrite segToString_segFromString. simpl.
    apply Z.eqb_neq in Hh. rewrite Hh, andb_false_r. reflexivity.
Qed.

Lemma replaceEnding_noER : forall suf rep segs,
  noER (upperStr segs) = true -> noER (ups rep) = true -> hd 0 (ups rep) <> 82 ->
  noER (upperStr (fst (replaceEnding suf rep segs))) = true.
Proof.
  intros suf rep segs Hs Hr Hh. unfold replaceEnding.
  destruct (ends_with (upperStr segs) suf && (length suf <=? length segs)%nat);
    [apply splice_end_noER; assumption | exact Hs].
Qed.

Lemma replaceEndingLY_noER : forall segs, noER (upperStr segs) = true ->
  noER (upperStr (replaceEndingLY segs)) = true.
Proof.
  intros segs Hs. unfold replaceEndingLY.
  destruct (ends_with (upperStr segs) (js "LEY") && (3 <=? length segs)%nat);
    [apply splice_end_noER; [exact Hs | reflexivity | discriminate]|].
  destruct (ends_with (upperStr segs) (js "LY") && (2 <=? length segs)%nat);
    [apply splice_end_noER; [exact Hs | reflexivity | discriminate] | exact Hs].
Qed.

Lemma suffixBeforeEndingAH_noER : forall segs,
  noER (upperStr (suffixBeforeEndingAH segs)) = true.
Proof.
  intro segs. unfold suffixBeforeEndingAH, replaceEndingTION, replaceEndingTY.
  apply replaceEndingLY_noER.
  apply replaceEnding_noER; [| reflexivity | discriminate].
  apply replaceEnding_noER; [| reflexivity | discriminate].
  apply replaceAllIRWithAR_noER, replaceAllERWithAH_noER.
Qed.

Lemma ends_with_app : forall s suf, ends_with s suf = true -> exists p, s = p ++ suf.
Proof.
  intros s suf H. unfold ends_with in H. apply andb_true_iff in H as [_ H].
  apply list_eqb_eq in H. exists (firstn (length s - length suf) s).
  rewrite <- H at 2. symmetry. apply firstn_skipn.
Qed.

Lemma noER_not_ends_ER : forall s, noER s = true -> ends_with s (js "ER") = false.
Proof.
  intros s Hs. destruct (ends_with s (js "ER")) eqn:E; [|reflexivity].
  destruct (ends_with_app _ _ E) as [p ->].
  apply noER_app_r in Hs. discriminate.
Qed.

(** C9: when the ending-AH rule runs inside [transformWordPart], the working
    string never ends in "ER" (so that branch is dead), and the
    [endingChangedToAH] flag handed on is true exactly when the string after
    suffix stages 1-5 ends in "UR" or in "A". *)
Theorem endingAH_never_sees_ER : forall part,
  let segs5 := suffixBeforeEndingAH (segFromString part true) in
  ends_with (upperStr segs5) (js "ER") = false /\
  (snd (suffixTransforms (segFromString part true)) = true <->
   ends_with (upperStr segs5) (js "UR") = true \/ ends_with (upperStr segs5) (js "A") = true).
Proof.
  intro part. cbv zeta.
  pose proof (noER_not_ends_ER _ (suffixBeforeEndingAH_noER (segFromString part true))) as HER.
  split; [exact HER|].
  unfold suffixTransforms, applyEndingAH. rewrite HER, orb_false_l.
  destruct (ends_with (upperStr (suffixBeforeEndingAH (segFromString part true))) (js "UR"));
    [cbn [snd]; tauto|].
  destruct (ends_with (upperStr (suffixBeforeEndingAH (segFromString part true))) (js "A"));
    cbn [snd]; intuition discriminate.
Qed.

(** * Tokenization (C1, C10) *)

Definition state_text (st : scan_state) : list Z :=
  match st with SGap => [] | SWord t => t | SSep t d => t ++ [d] end.

Lemma scan_from_text : forall s st,
  concat (map span_text (scan_from st s)) = state_text st ++ s.
Proof.
  induction s as [|c s IH]; intros [|t|t d]; simpl.
  - reflexivity.
  - rewrite app_nil_r. reflexivity.
  - rewrite app_nil_r. reflexivity.
  - destruct (isLetter c); simpl; rewrite IH; reflexivity.
  - destruct (isLetter c); [rewrite IH; simpl; rewrite <- app_assoc; reflexivity|].
    destruct (isSep c); simpl; rewrite IH; simpl; [rewrite <- app_assoc; reflexivity | reflexivity].
  - destruct (isLetter c); simpl; rewrite IH; simpl; rewrite <- !app_assoc; reflexivity.
Qed.

(** A match of the token regex: letters, then separator-letters groups. *)
Inductive wf_tok : list Z -> Prop :=
| wf_letters p : p <> [] -> forallb isLetter p = true -> wf_tok p
| wf_sep t d p : wf_tok t -> isSep d = true -> p <> [] -> forallb isLetter p = true ->
    wf_tok (t ++ d :: p).

Definition st_ok (st : scan_state) : Prop :=
  match st with
  | SGap => True
  | SWord t => wf_tok t
  | SSep t d => wf_tok t /\ isSep d = true
  end.

Lemma wf_tok_snoc : forall t c, wf_tok t -> isLetter c = true -> wf_tok (t ++ [c]).
Proof.
  intros t c Ht Hc. destruct Ht as [p Hp Hl | t d p Ht Hd Hp Hl].
  - apply wf_letters; [destruct p; discriminate |].
    rewrite forallb_app, Hl. simpl. rewrite Hc. reflexivity.
  - rewrite <- app_assoc. simpl. apply wf_sep; [exact Ht | exact Hd | destruct p; discriminate |].
    rewrite forallb_app, Hl. simpl. rewrite Hc. reflexivity.
Qed.

Lemma sep_not_letter : forall c, isSep c = true -> isLetter c = false.
Proof.
  intros c H. unfold isSep in H. unfold isLetter.
  apply orb_true_iff in H as [H|H]; apply Z.eqb_eq in H; subst; reflexivity.
Qed.

Lemma scan_from_spans : forall s st, st_ok st ->
  (forall g, In (Gap g) (scan_from st s) -> exists c, g = [c] /\ isLetter c = false) /\
  (forall t, In (Tok t) (scan_from st s) -> wf_tok t).
Proof.
  induction s as [|c s IH]; intros st Hst.
  - destruct st as [|t|t d]; simpl; split; intros x Hx; simpl in Hst;
      repeat (destruct Hx as [Hx|Hx]; [try discriminate Hx; injection Hx as <-|]);
      try contradiction; eauto.
    + exists d. split; [reflexivity | apply sep_not_letter; tauto].
    + tauto.
  - destruct st as [|t|t d]; simpl in Hst |- *.
    + destruct (isLetter c) eqn:Hc.
      * apply IH. apply wf_letters; [discriminate | simpl; rewrite Hc; reflexivity].
      * destruct (IH SGap I) as [IHg IHt]. split; intros x [Hx|Hx]; eauto.
        -- injection Hx as <-. eauto.
        -- discriminate.
    + destruct (isLetter c) eqn:Hc; [apply IH; apply wf_tok_snoc; assumption|].
      destruct (isSep c) eqn:Hs; [apply IH; simpl; tauto|].
      destruct (IH SGap I) as [IHg IHt].
      split; intros x Hx; simpl in Hx;
        repeat (destruct Hx as [Hx|Hx]; [try discriminate Hx; injection Hx as <-|]); eauto.
    + destruct Hst as [Ht Hd].
      destruct (isLetter c) eqn:Hc.
      * apply IH. apply (wf_sep t d [c]); [exact Ht | exact Hd | discriminate | simpl; rewrite Hc; reflexivity].
      * destruct (IH SGap I) as [IHg IHt].
        split; intros x Hx; simpl in Hx;
          repeat (destruct Hx as [Hx|Hx]; [try discriminate Hx; injection Hx as <-|]); eauto.
        exists d. split; [reflexivity | apply sep_not_letter; exact Hd].
Qed.

Lemma split_keep_nonempty : forall s, split_keep s <> [].
Proof.
  intros [|c s]; simpl; [discriminate|].
  destruct (isSep c); [discriminate|]. destruct (split_keep s); discriminate.
Qed.

Lemma split_keep_letters : forall p, forallb isLetter p = true -> split_keep p = [p].
Proof.
  induction p as [|c p IH]; intro H; [reflexivity|].
  simpl in H. apply andb_true_iff in H as [Hc Hp].
  simpl. destruct (isSep c) eqn:Hs.
  - rewrite (sep_not_letter c Hs) in Hc. discriminate.
  - rewrite (IH Hp). reflexivity.
Qed.

Lemma split_keep_app_sep : forall a d b, isSep d = true ->
  split_keep (a ++ d :: b) = split_keep a ++ [d] :: split_keep b.
Proof.
  induction a as [|c a IH]; intros d b Hd; simpl; [rewrite Hd; reflexivity|].
  destruct (isSep c); [rewrite IH by exact Hd; reflexivity|].
  rewrite IH by exact Hd.
  destruct (split_keep a) as [|p ps] eqn:E; [exfalso; exact (split_keep_nonempty a E)|].
  reflexivity.
Qed.

(** What [transformWordToken] feeds onwards: a lone separator, kept as it
    is, or a non-empty run of ASCII letters, given to [transformWordPart]. *)
Definition part_ok (p : list Z) : Prop :=
  (list_eqb p [45] || list_eqb p [39]) = true \/ (p <> [] /\ forallb isLetter p = true).

Lemma wf_tok_parts : forall t, wf_tok t -> forall p, In p (split_keep t) -> part_ok p.
Proof.
  intros t Ht. induction Ht as [p Hp Hl | t d p Ht IH Hd Hp Hl]; intros q Hq.
  - rewrite (split_keep_letters p Hl) in Hq. destruct Hq as [<-|[]]. right. tauto.
  - rewrite split_keep_app_sep in Hq by exact Hd.
    rewrite (split_keep_letters p Hl) in Hq.
    apply in_app_or in Hq as [Hq|[<-|[<-|[]]]]; [exact (IH q Hq) | | right; tauto].
    left. unfold isSep in Hd.
    apply orb_true_iff in Hd as [Hd|Hd]; apply Z.eqb_eq in Hd; subst; reflexivity.
Qed.

Lemma wf_tok_chars : forall t, wf_tok t -> forallb (fun c => isLetter c || isSep c) t = true.
Proof.
  assert (Hl : forall p, forallb isLetter p = true ->
             forallb (fun c => isLetter c || isSep c) p = true).
  { induction p as [|c p IH]; simpl; [reflexivity|].
    intro H. apply andb_true_iff in H as [Hc Hp]. rewrite Hc, (IH Hp). reflexivity. }
  intros t Ht. induction Ht as [p Hp Hlp | t d p Ht IH Hd Hp Hlp].
  - apply Hl, Hlp.
  - rewrite forallb_app, IH. simpl. rewrite Hd, orb_true_r, (Hl p Hlp). reflexivity.
Qed.

(** C10: only the 52 ASCII letters are word characters.  The scan cuts the
    input into pass-through characters and regex matches; every
    pass-through character is a non-letter; every match consists of letters
    and separators only, and splits into lone separators and non-empty runs
    of ASCII letters, which alone reach [transformWordPart]; the output is
    the pass-through characters as they are and the transformed matches, in
    order, uppercased once as a whole. *)
Theorem only_ascii_letters_enter_pipeline : forall input,
  concat (map span_text (scan input)) = input /\
  (forall g, In (Gap g) (scan input) -> exists c, g = [c] /\ isLetter c = false) /\
  (forall t, In (Tok t) (scan input) ->
     forallb (fun c => isLetter c || isSep c) t = true /\
     forall p, In p (split_keep t) -> part_ok p) /\
  (forall up, convertText up input =
     let* outs := mapM span_out (scan input) in Some (toUpperCase up (concat outs))).
Proof.
  intro input. destruct (scan_from_spans input SGap I) as [Hg Ht].
  split; [exact (scan_from_text input SGap)|].
  split; [exact Hg|].
  split; [|reflexivity].
  intros t Hin. split; [apply wf_tok_chars, Ht, Hin | apply wf_tok_parts, Ht, Hin].
Qed.

(** * C1: pass-through text *)

Lemma mapM_Forall2 : forall {A B} (f : A -> option B) l ys,
  mapM f l = Some ys -> Forall2 (fun x y => f x = Some y) l ys.
Proof.
  intros A B f. induction l as [|x l IH]; intros ys H; simpl in H.
  - injection H as <-. constructor.
  - destruct (f x) as [y|] eqn:Hf; [|discriminate]. simpl in H.
    destruct (mapM f l) as [ys'|] eqn:Hl; [|discriminate]. simpl in H.
    injection H as <-. constructor; [exact Hf | apply IH; reflexivity].
Qed.

Lemma toUpperCase_concat : forall up l,
  toUpperCase up (concat l) = concat (map (toUpperCase up) l).
Proof.
  intros up l. unfold toUpperCase. induction l as [|x l IH]; [reflexivity|].
  simpl. rewrite flat_map_app, IH. reflexivity.
Qed.

(** C1 (counterexample): a pass-through character does not keep its index
    once a token before it changes length: the "." of "snake." is at index 5
    of the input and at index 6 of "SANOKE."; and a non-ASCII pass-through
    character is uppercased, "é" (U+00E9) becoming "É" (U+00C9). *)
Lemma convertText_shifts_and_uppercases_passthrough :
  convertText upperLatin1 (js "snake.") = Some (js "SANOKE.") /\
  nth_error (js "snake.") 5 = Some 46 /\
  nth_error (js "SANOKE.") 5 = Some 69 /\
  nth_error (js "SANOKE.") 6 = Some 46 /\
  convertText upperLatin1 [233] = Some [201].
Proof. repeat split; vm_compute; reflexivity. Qed.

(** C1 (amended): the characters outside word tokens are emitted as they
    are and in input order, interleaved with the transformed tokens, and
    the whole output is then uppercased.  Every such character is a
    non-letter, and an ASCII one comes out byte-identical; indices move
    when a token changes length, and non-ASCII characters take their
    uppercase form. *)
Theorem convertText_passthrough : forall up input out,
  upper_ascii_ok up = true ->
  convertText up input = Some out ->
  exists outs,
    Forall2 (fun sp o => span_out sp = Some o) (scan input) outs /\
    concat (map span_text (scan input)) = input /\
    out = concat (map (toUpperCase up) outs) /\
    (forall g, In (Gap g) (scan input) ->
       exists c, g = [c] /\ isLetter c = false /\ span_out (Gap g) = Some g /\
                 (isAscii c = true -> toUpperCase up g = g)).
Proof.
  intros up input out Hup Hc. unfold convertText in Hc.
  destruct (mapM span_out (scan input)) as [outs|] eqn:Hm; [|discriminate].
  simpl in Hc. injection Hc as <-.
  destruct (scan_from_spans input SGap I) as [Hg _].
  exists outs. split; [apply mapM_Forall2, Hm|].
  split; [exact (scan_from_text input SGap)|].
  split; [apply toUpperCase_concat|].
  intros g Hin. destruct (Hg g Hin) as [c [-> Hl]].
  exists c. split; [reflexivity|]. split; [exact Hl|]. split; [reflexivity|].
  intro Ha. unfold isAscii in Ha. apply andb_true_iff in Ha as [H0 H1].
  apply Z.leb_le in H0. apply Z.ltb_lt in H1.
  unfold toUpperCase. simpl. rewrite (upper_ascii_ok_spec up Hup c) by lia.
  unfold upperA. unfold isLetter in Hl.
  destruct ((97 <=? c) && (c <=? 122)) eqn:E; [rewrite orb_true_r in Hl; discriminate|].
  reflexivity.
Qed.

Lemma convertText_passthrough_witness :
  exists outs,
    Forall2 (fun sp o => span_out sp = Some o) (scan (js "snake.")) outs /\
    concat (map span_text (scan (js "snake."))) = js "snake." /\
    js "SANOKE." = concat (map (toUpperCase upperLatin1) outs) /\
    (forall g, In (Gap g) (scan (js "snake.")) ->
       exists c, g = [c] /\ isLetter c = false /\ span_out (Gap g) = Some g /\
                 (isAscii c = true -> toUpperCase upperLatin1 g = g)).
Proof.
  apply (convertText_passthrough upperLatin1 (js "snake.") (js "SANOKE."));
    vm_compute; reflexivity.
Defined.

(** * Further properties of the converter *)

Lemma mapM_app : forall {A B} (f : A -> option B) l1 l2,
  mapM f (l1 ++ l2) = (let* x := mapM f l1 in let* y := mapM f l2 in Some (x ++ y)).
Proof.
  intros A B f l1 l2. induction l1 as [|a l1 IH]; simpl.
  - destruct (mapM f l2); reflexivity.
  - destruct (f a); simpl; [|reflexivity].
    rewrite IH. destruct (mapM f l1); simpl; [|reflexivity].
    destruct (mapM f l2); reflexivity.
Qed.

(** [parts.join("")] undoes [token.split(/([-'])/)]. *)
Theorem split_keep_join : forall t, concat (split_keep t) = t.
Proof.
  induction t as [|c t IH]; [reflexivity|]. simpl.
  destruct (isSep c); [simpl; rewrite IH; reflexivity|].
  destruct (split_keep t) as [|p ps] eqn:E; [exfalso; exact (split_keep_nonempty t E)|].
  simpl in IH |- *. rewrite IH. reflexivity.
Qed.

(** A token is transformed part by part: around a hyphen or apostrophe the
    two sides are transformed independently and the separator is kept. *)
Theorem transformWordToken_sep : forall a d b, isSep d = true ->
  transformWordToken (a ++ d :: b) =
  (let* x := transformWordToken a in let* y := transformWordToken b in Some (x ++ d :: y)).
Proof.
  intros a d b Hd. unfold transformWordToken.
  rewrite split_keep_app_sep by exact Hd. rewrite mapM_app.
  assert (Hp : transformPiece [d] = Some [d]).
  { unfold transformPiece, isSep in *.
    apply orb_true_iff in Hd as [Hd|Hd]; apply Z.eqb_eq in Hd; subst; reflexivity. }
  destruct (mapM transformPiece (split_keep a)) as [xs|]; simpl; [|reflexivity].
  rewrite Hp. simpl.
  destruct (mapM transformPiece (split_keep b)) as [ys|]; simpl; [|reflexivity].
  rewrite concat_app. reflexivity.
Qed.

Lemma transformWordToken_sep_witness :
  transformWordToken (js "re-enter") =
  (let* x := transformWordToken (js "re") in
   let* y := transformWordToken (js "enter") in Some (x ++ 45 :: y)).
Proof. apply (transformWordToken_sep (js "re") 45 (js "enter")). reflexivity. Defined.

Lemma scan_from_app_gap : forall c b a st,
  isLetter c = false -> isSep c = false ->
  scan_from st (a ++ c :: b) = scan_from st a ++ Gap [c] :: scan_from SGap b.
Proof.
  intros c b a. induction a as [|x a IH]; intros st Hl Hs.
  - destruct st as [|t|t d]; simpl; rewrite Hl; [reflexivity| rewrite Hs; reflexivity | reflexivity].
  - destruct st as [|t|t d]; simpl.
    + destruct (isLetter x); [apply IH; assumption | rewrite IH by assumption; reflexivity].
    + destruct (isLetter x); [apply IH; assumption|].
      destruct (isSep x); [apply IH; assumption | rewrite IH by assumption; reflexivity].
    + destruct (isLetter x); [apply IH; assumption | rewrite IH by assumption; reflexivity].
Qed.

(** Text is converted piece by piece: splitting the input at a character
    that is neither a letter nor a hyphen/apostrophe (a space, a digit, a
    full stop) splits the output there, that character being only
    uppercased. *)
Theorem convertText_app_gap : forall up a c b,
  isLetter c = false -> isSep c = false ->
  convertText up (a ++ c :: b) =
  (let* x := convertText up a in let* y := convertText up b in Some (x ++ up c ++ y)).
Proof.
  intros up a c b Hl Hs. unfold convertText, scan.
  rewrite scan_from_app_gap by assumption. rewrite mapM_app.
  destruct (mapM span_out (scan_from SGap a)) as [xs|]; simpl; [|reflexivity].
  destruct (mapM span_out (scan_from SGap b)) as [ys|]; simpl; [|reflexivity].
  unfold toUpperCase. rewrite concat_app, flat_map_app. simpl.
  rewrite ?app_nil_r, <- ?app_assoc. reflexivity.
Qed.

Lemma convertText_app_gap_witness :
  convertText upperLatin1 (js "don't stop") =
  (let* x := convertText upperLatin1 (js "don't") in
   let* y := convertText upperLatin1 (js "stop") in Some (x ++ upperLatin1 32 ++ y)).
Proof. apply (convertText_app_gap upperLatin1 (js "don't") 32 (js "stop")); reflexivity. Defined.

(** A letter-free input (empty, punctuation, digits, separators) is only
    uppercased. *)
Theorem convertText_no_letters : forall up input,
  forallb (fun c => negb (isLetter c)) input = true ->
  convertText up input = Some (toUpperCase up input).
Proof.
  intros up input H. unfold convertText, scan.
  assert (Hs : scan_from SGap input = map (fun c => Gap [c]) input).
  { induction input as [|c s IH]; [reflexivity|].
    simpl in H. apply andb_true_iff in H as [Hc H].
    simpl. destruct (isLetter c); [discriminate|]. rewrite IH by exact H. reflexivity. }
  rewrite Hs. clear H Hs.
  assert (Hm : mapM span_out (map (fun c => Gap [c]) input) = Some (map (fun c => [c]) input)).
  { induction input as [|c s IH]; [reflexivity|]. simpl. rewrite IH. reflexivity. }
  rewrite Hm. simpl.
  replace (concat (map (fun c => [c]) input)) with input; [reflexivity|].
  clear Hm. induction input as [|c s IH]; [reflexivity|]. simpl. rewrite <- IH. reflexivity.
Qed.

Lemma convertText_no_letters_witness :
  convertText upperLatin1 (js "1, 2 - 3!") = Some (js "1, 2 - 3!").
Proof.
  pose proof (convertText_no_letters upperLatin1 (js "1, 2 - 3!")) as H.
  rewrite H by reflexivity. vm_compute. reflexivity.
Defined.

(** After the ER stage no E-R pair is left, in either case. *)
Theorem replaceAllERWithAH_no_pair : forall segs p q,
  upperStr (replaceAllERWithAH segs) <> p ++ 69 :: 82 :: q.
Proof.
  intros segs p q Heq. pose proof (replaceAllERWithAH_noER segs) as H.
  rewrite Heq in H. apply noER_app_r in H. discriminate.
Qed.

Lemma swapLoop_length : forall b prot l i, length (swapLoop b prot i l) = length l.
Proof. intros b prot. induction l as [|s l IH]; intro i; simpl; [reflexivity | rewrite IH; reflexivity]. Qed.

(** What the vowel-swap stage can change: the length is kept, and a
    segment changes only when it is an origin=true A/E/I before the
    protected-suffix boundary, not tail-protected and not followed by a
    vowel letter; it then becomes an origin=false "o". *)
Theorem applyVowelSwaps_changes : forall segs flag,
  length (applyVowelSwaps segs flag) = length segs /\
  forall k s, nth_error segs k = Some s ->
    nth_error (applyVowelSwaps segs flag) k = Some s \/
    ((k < protectedSuffixStartIndex segs)%nat /\ origin s = true /\
     isSwappable (upperA (ch s)) = true /\
     ~ In k (protectSet (origVowelIdx segs) flag) /\
     (forall n, nth_error segs (S k) = Some n -> isVowel (upperA (ch n)) = false) /\
     nth_error (applyVowelSwaps segs flag) k = Some (Seg 111 false)).
Proof.
  intros segs flag. split; [apply swapLoop_length|].
  intros k s Hs. unfold applyVowelSwaps. rewrite swapLoop_nth, Hs. rewrite Nat.add_0_l.
  unfold swapStep.
  destruct (protectedSuffixStartIndex segs <=? k)%nat eqn:Hb; [left; reflexivity|].
  destruct (origin s) eqn:Ho; [|left; reflexivity]. cbv [negb].
  destruct (isSwappable (upperA (ch s))) eqn:Hw; [|left; reflexivity]. cbv [negb].
  destruct (existsb (Nat.eqb k) (protectSet (origVowelIdx segs) flag)) eqn:Hp; [left; reflexivity|].
  destruct (nth_error segs (S k)) as [n|] eqn:Hn.
  - destruct (isVowel (upperA (ch n))) eqn:Hv; [left; reflexivity|].
    right. apply Nat.leb_gt in Hb. repeat split; try assumption; try reflexivity.
    + intro Hin. assert (existsb (Nat.eqb k) (protectSet (origVowelIdx segs) flag) = true) as Hc
        by (apply existsb_exists; exists k; split; [exact Hin | apply Nat.eqb_refl]).
      congruence.
    + intros n' Hn'. congruence.
  - right. apply Nat.leb_gt in Hb. repeat split; try assumption; try reflexivity.
    + intro Hin. assert (existsb (Nat.eqb k) (protectSet (origVowelIdx segs) flag) = true) as Hc
        by (apply existsb_exists; exists k; split; [exact Hin | apply Nat.eqb_refl]).
      congruence.
    + intros n' Hn'. discriminate.
Qed.

Lemma last_nth : forall (l : list nat) d, l <> [] -> last l d = nth (length l - 1) l d.
Proof.
  induction l as [|a l IH]; intros d H; [contradiction|].
  destruct l as [|b l]; [reflexivity|].
  change (last (a :: b :: l) d) with (last (b :: l) d). rewrite IH by discriminate.
  simpl. rewrite Nat.sub_0_r. reflexivity.
Qed.

(** Tail protection: when the ending did not become AH, the last original
    vowel of the word-part comes out unswapped. *)
Theorem vowelSwaps_last_kept : forall part segs out,
  fst (applyExceptions part) = false ->
  preSwap part = Some (segs, false) ->
  origVowelIdx segs <> [] ->
  transformWordPart part = Some out ->
  kept_vowel segs out (last (origVowelIdx segs) 0%nat).
Proof.
  intros part segs out Hex Hpre Hne Ht.
  unfold transformWordPart in Ht.
  destruct (applyExceptions part) as [hit o]. simpl in Hex. subst hit.
  rewrite Hpre in Ht. simpl in Ht. injection Ht as <-.
  rewrite last_nth by exact Hne.
  assert (Hlen : (1 <= length (origVowelIdx segs))%nat)
    by (destruct (origVowelIdx segs); [contradiction | simpl; lia]).
  apply vowelSwaps_keep_protected.
  - unfold protectSet. apply Nat.leb_le in Hlen. rewrite Hlen. simpl. left. reflexivity.
  - apply nth_In. lia.
Qed.

Lemma vowelSwaps_last_kept_witness :
  exists segs out,
    preSwap (js "internet") = Some (segs, false) /\
    transformWordPart (js "internet") = Some out /\
    kept_vowel segs out (last (origVowelIdx segs) 0%nat).
Proof.
  eexists; eexists.
  split; [vm_compute; reflexivity|]. split; [vm_compute; reflexivity|].
  apply (vowelSwaps_last_kept (js "internet")); vm_compute; try reflexivity; discriminate.
Defined.

Lemma PROTECTED_SUFFIXES_sorted : StronglySorted len_desc PROTECTED_SUFFIXES.
Proof.
  apply Sorted_StronglySorted; [intros x y z; unfold len_desc; lia|].
  vm_compute.
  repeat (apply Sorted_cons; [| first [apply HdRel_nil | apply HdRel_cons; unfold len_desc; simpl; lia]]).
  apply Sorted_nil.
Qed.

Lemma find_first_longest : forall (p : list Z -> bool) l x,
  StronglySorted len_desc l -> find p l = Some x ->
  forall y, In y l -> p y = true -> (length y <= length x)%nat.
Proof.
  intros p l x Hs. induction Hs as [|a l Hs IH Hall]; intros Hf y Hy Hp; [discriminate|].
  simpl in Hf. destruct (p a) eqn:Ha.
  - injection Hf as <-. destruct Hy as [<-|Hy]; [lia|].
    rewrite Forall_forall in Hall. apply (Hall y Hy).
  - destruct Hy as [<-|Hy]; [congruence|]. exact (IH Hf y Hy Hp).
Qed.

Lemma ends_with_skipn : forall s suf,
  ends_with s suf = true -> skipn (length s - length suf) s = suf.
Proof.
  intros s suf H. unfold ends_with in H. apply andb_true_iff in H as [_ H].
  apply list_eqb_eq. exact H.
Qed.

(** [protectedSuffixStartIndex] is the start of the longest protected
    suffix the uppercased word-part ends with, and the end of the part
    when it ends with none of them. *)
Theorem protectedSuffixStartIndex_longest : forall segs,
  let u := upperStr segs in
  let b := protectedSuffixStartIndex segs in
  (b = length segs /\ forall suf, In suf PROTECTED_SUFFIXES -> ends_with u suf = false) \/
  (In (skipn b u) PROTECTED_SUFFIXES /\ ends_with u (skipn b u) = true /\
   forall suf, In suf PROTECTED_SUFFIXES -> ends_with u suf = true ->
     (length suf <= length (skipn b u))%nat).
Proof.
  intros segs u b. subst u b. unfold protectedSuffixStartIndex.
  assert (Hl : length (upperStr segs) = length segs)
    by (unfold upperStr, ups, segToString; rewrite !length_map; reflexivity).
  destruct (find (fun suf => ends_with (upperStr segs) suf) PROTECTED_SUFFIXES) as [x|] eqn:Hf.
  - right. apply find_some in Hf as Hx. destruct Hx as [Hin He].
    rewrite (ends_with_skipn _ _ He). split; [exact Hin|]. split; [exact He|].
    intros suf Hs Hsuf.
    apply (find_first_longest _ _ _ PROTECTED_SUFFIXES_sorted Hf suf Hs Hsuf).
  - left. split; [exact Hl|]. intros suf Hs.
    exact (find_none _ _ Hf suf Hs).
Qed.

Lemma derived_refl : forall l, derived l l.
Proof. intros l s H. left. exact H. Qed.

Lemma derived_trans : forall c b a, derived c b -> derived b a -> derived c a.
Proof.
  intros c b a Hcb Hba s Hs. destruct (Hcb s Hs) as [H|H]; [exact (Hba s H) | right; exact H].
Qed.

Lemma derived_synth : forall rep, forallb isLetter rep = true ->
  forall s, In s (segFromString rep false) -> synth s.
Proof.
  intros rep Hr s Hs. unfold segFromString in Hs. apply in_map_iff in Hs as [c [<- Hc]].
  rewrite forallb_forall in Hr. split; [reflexivity | exact (Hr c Hc)].
Qed.

Lemma derived_splice : forall segs k m rep, forallb isLetter rep = true ->
  derived (spliceSegs segs k m (segFromString rep false)) segs.
Proof.
  intros segs k m rep Hr s Hs. unfold spliceSegs in Hs.
  apply in_app_or in Hs as [Hs|Hs]; [|apply in_app_or in Hs as [Hs|Hs]].
  - left. rewrite <- (firstn_skipn k segs). apply in_or_app. left. exact Hs.
  - right. exact (derived_synth rep Hr s Hs).
  - left. rewrite <- (firstn_skipn m segs). apply in_or_app. right. exact Hs.
Qed.

Lemma derived_cons : forall a out segs, derived out segs -> derived (a :: out) (a :: segs).
Proof.
  intros a out segs H s [<-|Hs]; [left; left; reflexivity|].
  destruct (H s Hs) as [H'|H']; [left; right; exact H' | right; exact H'].
Qed.

Lemma replaceAllPair_cons2 : forall x y rep a b rest,
  replaceAllPair x y rep (a :: b :: rest) =
  if (upperA (ch a) =? x) && (upperA (ch b) =? y)
  then segFromString rep false ++ replaceAllPair x y rep rest
  else a :: replaceAllPair x y rep (b :: rest).
Proof. reflexivity. Qed.

Lemma derived_replaceAllPair : forall x y rep segs, forallb isLetter rep = true ->
  derived (replaceAllPair x y rep segs) segs.
Proof.
  intros x y rep segs Hr.
  remember (length segs) as n eqn:Hn. assert (Hle : (length segs <= n)%nat) by lia. clear Hn.
  revert segs Hle. induction n as [|n IH]; intros segs Hle.
  - destruct segs; [apply derived_refl | simpl in Hle; lia].
  - destruct segs as [|a [|b rest]]; try apply derived_refl.
    rewrite replaceAllPair_cons2.
    destruct ((upperA (ch a) =? x) && (upperA (ch b) =? y)).
    + intros s Hs. apply in_app_or in Hs as [Hs|Hs].
      * right. exact (derived_synth rep Hr s Hs).
      * simpl in Hle. destruct (IH rest ltac:(lia) s Hs) as [H|H];
          [left; right; right; exact H | right; exact H].
    + apply derived_cons. apply IH. simpl in *. lia.
Qed.

Ltac derived_if :=
  repeat match goal with
  | |- context [if ?c then _ else _] => destruct c
  end; cbn [fst]; first [apply derived_refl | apply derived_splice; vm_compute; reflexivity].

Lemma derived_replaceEnding : forall suf rep segs, forallb isLetter rep = true ->
  derived (fst (replaceEnding suf rep segs)) segs.
Proof.
  intros suf rep segs Hr. unfold replaceEnding.
  destruct (_ && _); [apply derived_splice; exact Hr | apply derived_refl].
Qed.

Lemma derived_replaceEndingLY : forall segs, derived (replaceEndingLY segs) segs.
Proof. intros segs. unfold replaceEndingLY. derived_if. Qed.

Lemma derived_replaceEndingYToEH : forall segs, derived (fst (replaceEndingYToEH segs)) segs.
Proof. intros segs. unfold replaceEndingYToEH. derived_if. Qed.

Lemma derived_applyEndingAH : forall segs, derived (fst (applyEndingAH segs)) segs.
Proof. intros segs. unfold applyEndingAH. derived_if. Qed.

Lemma derived_suffixTransforms : forall segs, derived (fst (suffixTransforms segs)) segs.
Proof.
  intros segs. unfold suffixTransforms, suffixBeforeEndingAH.
  destruct (applyEndingAH _) as [s1 f] eqn:Hah. cbn [fst].
  eapply derived_trans; [apply derived_replaceEndingYToEH|].
  eapply derived_trans; [apply derived_replaceEnding; vm_compute; reflexivity|].
  eapply derived_trans; [replace s1 with (fst (applyEndingAH (replaceEndingLY
    (fst (replaceEndingTY (fst (replaceEndingTION (replaceAllIRWithAR (replaceAllERWithAH segs)))))))))
    by (rewrite Hah; reflexivity); apply derived_applyEndingAH|].
  eapply derived_trans; [apply derived_replaceEndingLY|].
  eapply derived_trans; [apply derived_replaceEnding; vm_compute; reflexivity|].
  eapply derived_trans; [apply derived_replaceEnding; vm_compute; reflexivity|].
  eapply derived_trans; [apply derived_replaceAllPair; vm_compute; reflexivity|].
  apply derived_replaceAllPair; vm_compute; reflexivity.
Qed.

Ltac derived_opt H :=
  repeat match type of H with
  | context [if ?c then _ else _] => destruct c
  | context [nth_error ?l ?n] => destruct (nth_error l n); cbn [bind] in H
  end;
  try discriminate H; injection H as <-;
  first [apply derived_refl
        | match goal with |- derived (spliceSegs _ _ _ ?l) _ =>
            change l with (segFromString (map ch l) false) end;
          apply derived_splice; vm_compute; reflexivity].

Lemma derived_replaceStarting : forall x y rep segs r, forallb isLetter rep = true ->
  replaceStarting x y rep segs = Some r -> derived r segs.
Proof.
  intros x y rep segs r Hr H. unfold replaceStarting in H.
  repeat match type of H with
  | context [if ?c then _ else _] => destruct c
  | context [nth_error ?l ?n] => destruct (nth_error l n); cbn [bind] in H
  end; try discriminate H; injection H as <-;
  first [apply derived_refl | apply derived_splice; exact Hr].
Qed.

Lemma derived_applyPrefixREToRO : forall segs r,
  applyPrefixREToRO segs = Some r -> derived r segs.
Proof. intros segs r H. unfold applyPrefixREToRO in H. derived_opt H. Qed.

Lemma derived_applyClusterInsertions : forall segs r,
  applyClusterInsertions segs = Some r -> derived r segs.
Proof. intros segs r H. unfold applyClusterInsertions in H. derived_opt H. Qed.

Lemma derived_preSwap : forall part segs f,
  preSwap part = Some (segs, f) -> derived segs (segFromString part true).
Proof.
  intros part segs f H. unfold preSwap in H.
  pose proof (derived_suffixTransforms (segFromString part true)) as Hs.
  destruct (suffixTransforms _) as [s1 f1]. cbn [fst] in Hs.
  unfold prefixTransforms in H.
  destruct (replaceStartingSNWithSAN s1) as [s2|] eqn:H2; [|discriminate]. cbn [bind] in H.
  destruct (replaceStartingSWWithSAW s2) as [s3|] eqn:H3; [|discriminate]. cbn [bind] in H.
  destruct (applyPrefixREToRO s3) as [s4|] eqn:H4; [|discriminate]. cbn [bind] in H.
  destruct (applyClusterInsertions s4) as [s5|] eqn:H5; [|discriminate]. cbn [bind] in H.
  injection H as <- _.
  eapply derived_trans; [exact (derived_applyClusterInsertions _ _ H5)|].
  eapply derived_trans; [exact (derived_applyPrefixREToRO _ _ H4)|].
  eapply derived_trans; [exact (derived_replaceStarting 83 87 (js "SAW") _ _ ltac:(vm_compute; reflexivity) H3)|].
  eapply derived_trans; [exact (derived_replaceStarting 83 78 (js "SAN") _ _ ltac:(vm_compute; reflexivity) H2)|].
  exact Hs.
Qed.

Lemma swapStep_cases : forall b prot i s n,
  swapStep b prot i s n = s \/ swapStep b prot i s n = Seg 111 false.
Proof.
  intros. unfold swapStep.
  repeat match goal with |- context [if ?c then _ else _] => destruct c end; auto.
Qed.

Lemma derived_swapLoop : forall b prot segs i, derived (swapLoop b prot i segs) segs.
Proof.
  intros b prot. induction segs as [|a segs IH]; intros i; [apply derived_refl|].
  cbn [swapLoop]. intros s [<-|Hs].
  - destruct (swapStep_cases b prot i a (hd_error segs)) as [E | E]; rewrite E;
      [left; left; reflexivity | right; split; reflexivity].
  - destruct (IH (S i) s Hs) as [H|H]; [left; right; exact H | right; exact H].
Qed.

(** Every segment left after the vowel swaps is either a character of the
    word-part with origin=true, or a letter a rule inserted, marked
    origin=false: no stage marks an inserted segment as original, and no
    stage inserts anything but letters. *)
Theorem transform_segments_provenance : forall part segs f,
  preSwap part = Some (segs, f) ->
  forall s, In s (applyVowelSwaps segs f) ->
    In s (segFromString part true) \/ (origin s = false /\ isLetter (ch s) = true).
Proof.
  intros part segs f H s Hs.
  exact (derived_trans _ _ _ (derived_swapLoop _ _ segs 0) (derived_preSwap part segs f H) s Hs).
Qed.

Lemma transform_segments_provenance_witness :
  exists segs f, preSwap (js "snake") = Some (segs, f) /\
  forall s, In s (applyVowelSwaps segs f) ->
    In s (segFromString (js "snake") true) \/ (origin s = false /\ isLetter (ch s) = true).
Proof.
  eexists; eexists. split; [vm_compute; reflexivity|].
  apply (transform_segments_provenance (js "snake")). vm_compute; reflexivity.
Defined.

Lemma upperA_letter : forall c, isLetter c = true -> isUpperLetter (upperA c) = true.
Proof.
  intros c H. unfold isLetter in H. unfold isUpperLetter, upperA.
  apply orb_true_iff in H. rewrite !andb_true_iff, !Z.leb_le in H.
  destruct ((97 <=? c) && (c <=? 122)) eqn:Hl;
    rewrite andb_true_iff, !Z.leb_le; [| rewrite andb_false_iff, !Z.leb_gt in Hl]; lia.
Qed.

Lemma ups_letters : forall s, forallb isLetter s = true -> forallb isUpperLetter (ups s) = true.
Proof.
  intros s H. rewrite forallb_forall in *. intros c Hc. unfold ups in Hc.
  apply in_map_iff in Hc as [d [<- Hd]]. apply upperA_letter, H, Hd.
Qed.

Lemma applyExceptions_in_hit : forall tbl w o,
  applyExceptions_in tbl w = (true, o) -> exists ex, In ex tbl /\ o = exc_output ex w.
Proof.
  induction tbl as [|ex tbl IH]; intros w o H; simpl in H; [discriminate|].
  destruct (exc_matches ex w).
  - injection H as <-. exists ex. split; [left; reflexivity | reflexivity].
  - destruct (IH w o H) as [e [He Ho]]. exists e. split; [right; exact He | exact Ho].
Qed.

Lemma EXCEPTIONS_letter_outputs : forall ex w, In ex EXCEPTIONS ->
  forallb isLetter (exc_output ex w) = true.
Proof.
  intros ex w H. unfold EXCEPTIONS in H.
  repeat (destruct H as [<-|H]; [vm_compute; reflexivity|]). destruct H.
Qed.

(** A word-part made of letters comes out of [transformWordPart] made of
    uppercase letters A-Z only, on the exception path as on the rule
    pipeline. *)
Theorem transformWordPart_upper_letters : forall part out,
  forallb isLetter part = true ->
  transformWordPart part = Some out ->
  forallb isUpperLetter out = true.
Proof.
  intros part out Hl Ht. unfold transformWordPart in Ht.
  destruct (applyExceptions part) as [hit o] eqn:He. destruct hit.
  - injection Ht as <-. apply ups_letters.
    destruct (applyExceptions_in_hit _ _ _ He) as [ex [Hin ->]].
    apply EXCEPTIONS_letter_outputs, Hin.
  - destruct (preSwap part) as [[segs f]|] eqn:Hp; [|discriminate]. cbn [bind] in Ht.
    injection Ht as <-. apply ups_letters. rewrite forallb_forall. intros c Hc.
    unfold segToString in Hc. apply in_map_iff in Hc as [s [<- Hs]].
    destruct (derived_trans _ _ _ (derived_swapLoop _ _ segs 0) (derived_preSwap part segs f Hp) s Hs) as [Hin | [_ Hlet]];
      [|exact Hlet].
    unfold segFromString in Hin. apply in_map_iff in Hin as [c [<- Hc]].
    rewrite forallb_forall in Hl. exact (Hl c Hc).
Qed.

Lemma transformWordPart_upper_letters_witness :
  forallb isLetter (js "Internet") = true /\
  forallb isUpperLetter (js "ONTAHNET") = true /\
  transformWordPart (js "Internet") = Some (js "ONTAHNET").
Proof.
  split; [vm_compute; reflexivity|]. split; [|vm_compute; reflexivity].
  apply (transformWordPart_upper_letters (js "Internet")); vm_compute; reflexivity.
Defined.

(** ** Lengths: no rule of the pipeline deletes characters *)

Lemma grows_trans : forall c b a, grows c b -> grows b a -> grows c a.
Proof. unfold grows. intros. lia. Qed.

Lemma ends_with_len : forall s suf, ends_with s suf = true -> (length suf <= length s)%nat.
Proof. intros s suf H. unfold ends_with in H. apply andb_true_iff in H as [H _]. apply Nat.leb_le, H. Qed.

Lemma upperStr_length : forall segs, length (upperStr segs) = length segs.
Proof. intros. unfold upperStr, ups, segToString. rewrite !length_map. reflexivity. Qed.

Ltac grow_tac :=
  unfold grows;
  repeat match goal with
  | H : (_ && _) = true |- _ => apply andb_true_iff in H as [? ?]
  | H : (_ || _) = true |- _ => apply orb_true_iff in H as [? | ?]
  | H : (_ <=? _)%nat = true |- _ => apply Nat.leb_le in H
  | H : ends_with _ _ = true |- _ => apply ends_with_len in H
  end;
  unfold spliceSegs, segFromString, segToString in *;
  rewrite ?length_app, ?length_firstn, ?length_skipn, ?length_map, ?upperStr_length in *;
  cbn [length js list_ascii_of_string map] in *; lia.

Ltac grow_if :=
  repeat match goal with
  | |- context [if ?c then _ else _] => let E := fresh "E" in destruct c eqn:E
  end; cbn [fst]; grow_tac.

Lemma grows_replaceAllPair : forall x y rep segs, length rep = 2%nat ->
  grows (replaceAllPair x y rep segs) segs.
Proof.
  intros x y rep segs Hr.
  remember (length segs) as n eqn:Hn. assert (Hle : (length segs <= n)%nat) by lia. clear Hn.
  revert segs Hle. induction n as [|n IH]; intros segs Hle.
  - destruct segs; [unfold grows; simpl; lia | simpl in Hle; lia].
  - destruct segs as [|a [|b rest]]; try (unfold grows; simpl; lia).
    rewrite replaceAllPair_cons2. unfold grows.
    destruct ((upperA (ch a) =? x) && (upperA (ch b) =? y)).
    + rewrite length_app. unfold segFromString. rewrite length_map, Hr.
      simpl in Hle. pose proof (IH rest ltac:(lia)) as H. unfold grows in H. simpl. lia.
    + simpl in Hle. pose proof (IH (b :: rest) ltac:(simpl; lia)) as H. unfold grows in H.
      simpl in *. lia.
Qed.

Lemma grows_replaceEnding : forall suf rep segs, (length suf <= length rep)%nat ->
  grows (fst (replaceEnding suf rep segs)) segs.
Proof. intros suf rep segs Hr. unfold replaceEnding. grow_if. Qed.

Lemma grows_replaceEndingLY : forall segs, grows (replaceEndingLY segs) segs.
Proof. intros segs. unfold replaceEndingLY. grow_if. Qed.

Lemma grows_replaceEndingYToEH : forall segs, grows (fst (replaceEndingYToEH segs)) segs.
Proof. intros segs. unfold replaceEndingYToEH. grow_if. Qed.

Lemma grows_applyEndingAH : forall segs, grows (fst (applyEndingAH segs)) segs.
Proof. intros segs. unfold applyEndingAH. grow_if. Qed.

Lemma grows_suffixTransforms : forall segs, grows (fst (suffixTransforms segs)) segs.
Proof.
  intros segs. unfold suffixTransforms, suffixBeforeEndingAH.
  destruct (applyEndingAH _) as [s1 f] eqn:Hah. cbn [fst].
  eapply grows_trans; [apply grows_replaceEndingYToEH|].
  eapply grows_trans; [apply grows_replaceEnding; vm_compute; lia|].
  eapply grows_trans; [replace s1 with (fst (applyEndingAH (replaceEndingLY
    (fst (replaceEndingTY (fst (replaceEndingTION (replaceAllIRWithAR (replaceAllERWithAH segs)))))))))
    by (rewrite Hah; reflexivity); apply grows_applyEndingAH|].
  eapply grows_trans; [apply grows_replaceEndingLY|].
  eapply grows_trans; [apply grows_replaceEnding; vm_compute; lia|].
  eapply grows_trans; [apply grows_replaceEnding; vm_compute; lia|].
  eapply grows_trans; [apply grows_replaceAllPair; reflexivity|].
  apply grows_replaceAllPair; reflexivity.
Qed.

Ltac grow_opt H :=
  repeat match type of H with
  | context [if ?c then _ else _] => let E := fresh "E" in destruct c eqn:E
  | context [nth_error ?l ?n] => destruct (nth_error l n); cbn [bind] in H
  end;
  try discriminate H; injection H as <-; grow_tac.

Lemma grows_replaceStarting : forall x y rep segs r, length rep = 3%nat ->
  replaceStarting x y rep segs = Some r -> grows r segs.
Proof.
  intros x y rep segs r Hr H. unfold replaceStarting in H.
  repeat match type of H with
  | context [if ?c then _ else _] => let E := fresh "E" in destruct c eqn:E
  | context [nth_error ?l ?n] => destruct (nth_error l n); cbn [bind] in H
  end; try discriminate H; injection H as <-; grow_tac.
Qed.

Lemma grows_applyPrefixREToRO : forall segs r,
  applyPrefixREToRO segs = Some r -> grows r segs.
Proof. intros segs r H. unfold applyPrefixREToRO in H. grow_opt H. Qed.

Lemma grows_applyClusterInsertions : forall segs r,
  applyClusterInsertions segs = Some r -> grows r segs.
Proof. intros segs r H. unfold applyClusterInsertions in H. grow_opt H. Qed.

(** When no exception fires, the output of [transformWordPart] is at least
    as long as the word-part: the rules rewrite and insert letters but never
    drop one. *)
Theorem transformWordPart_not_shorter : forall part out,
  fst (applyExceptions part) = false ->
  transformWordPart part = Some out ->
  (length part <= length out)%nat.
Proof.
  intros part out Hex Ht. unfold transformWordPart in Ht.
  destruct (applyExceptions part) as [hit o]. simpl in Hex. subst hit.
  destruct (preSwap part) as [[segs f]|] eqn:Hp; [|discriminate]. cbn [bind] in Ht.
  injection Ht as <-.
  unfold ups, segToString, applyVowelSwaps. rewrite !length_map, swapLoop_length.
  unfold preSwap in Hp.
  pose proof (grows_suffixTransforms (segFromString part true)) as Hs.
  destruct (suffixTransforms _) as [s1 f1]. cbn [fst] in Hs.
  unfold prefixTransforms in Hp.
  destruct (replaceStartingSNWithSAN s1) as [s2|] eqn:H2; [|discriminate]. cbn [bind] in Hp.
  destruct (replaceStartingSWWithSAW s2) as [s3|] eqn:H3; [|discriminate]. cbn [bind] in Hp.
  destruct (applyPrefixREToRO s3) as [s4|] eqn:H4; [|discriminate]. cbn [bind] in Hp.
  destruct (applyClusterInsertions s4) as [s5|] eqn:H5; [|discriminate]. cbn [bind] in Hp.
  injection Hp as <- _.
  pose proof (grows_applyClusterInsertions _ _ H5) as G5.
  pose proof (grows_applyPrefixREToRO _ _ H4) as G4.
  pose proof (grows_replaceStarting 83 87 (js "SAW") _ _ eq_refl H3) as G3.
  pose proof (grows_replaceStarting 83 78 (js "SAN") _ _ eq_refl H2) as G2.
  unfold grows, segFromString in *. rewrite length_map in Hs. lia.
Qed.

Lemma transformWordPart_not_shorter_witness :
  fst (applyExceptions (js "snake")) = false /\
  transformWordPart (js "snake") = Some (js "SANOKE") /\
  (length (js "snake") <= length (js "SANOKE"))%nat.
Proof.
  split; [vm_compute; reflexivity|]. split; [vm_compute; reflexivity|].
  apply (transformWordPart_not_shorter (js "snake")); vm_compute; reflexivity.
Defined.

(** ** Letter case does not matter *)

Ltac zcase :=
  repeat (cbn [andb orb]; match goal with
  | |- context [(?a <=? ?b)] =>
      lazymatch a with context [if _ then _ else _] => fail | _ =>
      lazymatch b with context [if _ then _ else _] => fail | _ =>
      destruct (Z.leb_spec a b) end end
  | |- context [(?a =? ?b)] =>
      lazymatch a with context [if _ then _ else _] => fail | _ =>
      lazymatch b with context [if _ then _ else _] => fail | _ =>
      destruct (Z.eqb_spec a b) end end
  end); cbn [andb orb]; try reflexivity; try lia.

Lemma upperA_idem : forall c, upperA (upperA c) = upperA c.
Proof. intros c. unfold upperA. zcase. Qed.

Lemma lowerA_upperA : forall c, lowerA (upperA c) = lowerA c.
Proof. intros c. unfold lowerA, upperA. zcase. Qed.

Lemma isLetter_upperA : forall c, isLetter (upperA c) = isLetter c.
Proof. intros c. unfold isLetter, upperA. zcase. Qed.

Lemma isSep_upperA : forall c, isSep (upperA c) = isSep c.
Proof. intros c. unfold isSep, upperA. zcase. Qed.

Lemma upperA_nonletter : forall c, isLetter c = false -> upperA c = c.
Proof.
  intros c H. unfold isLetter in H. unfold upperA.
  destruct ((97 <=? c) && (c <=? 122)) eqn:E; [|reflexivity].
  rewrite orb_true_r in H. discriminate.
Qed.

Lemma isConsonantLetter_upperA : forall c, isConsonantLetter (upperA c) = isConsonantLetter c.
Proof. intros c. unfold isConsonantLetter. rewrite isLetter_upperA, upperA_idem. reflexivity. Qed.

Lemma ups_idem : forall s, ups (ups s) = ups s.
Proof. intros s. unfold ups. rewrite map_map. apply map_ext, upperA_idem. Qed.

Lemma lows_ups : forall s, lows (ups s) = lows s.
Proof. intros s. unfold lows, ups. rewrite map_map. apply map_ext, lowerA_upperA. Qed.

Lemma nseg_eq : forall x y, nseg x = nseg y ->
  upperA (ch x) = upperA (ch y) /\ origin x = origin y.
Proof. intros x y H. unfold nseg in H. injection H as H1 H2. split; assumption. Qed.

Lemma norm_upperStr : forall a b, norm a = norm b -> upperStr a = upperStr b.
Proof.
  intros a b H.
  assert (E : forall l, upperStr l = segToString (norm l))
    by (intros l; unfold upperStr, ups, segToString, norm; rewrite !map_map; reflexivity).
  rewrite !E, H. reflexivity.
Qed.

Lemma norm_length : forall a b, norm a = norm b -> length a = length b.
Proof. intros a b H. rewrite <- (length_map nseg a), <- (length_map nseg b). exact (f_equal (@length _) H). Qed.

Lemma norm_splice : forall a b k m ins, norm a = norm b ->
  norm (spliceSegs a k m ins) = norm (spliceSegs b k m ins).
Proof.
  intros a b k m ins H. unfold spliceSegs, norm in *.
  rewrite !map_app, <- !firstn_map, <- !skipn_map, H. reflexivity.
Qed.

Lemma norm_nth : forall a b n, norm a = norm b ->
  option_map nseg (nth_error a n) = option_map nseg (nth_error b n).
Proof. intros a b n H. unfold norm in H. rewrite <- !nth_error_map, H. reflexivity. Qed.

Lemma norm_cons : forall x y a b, norm (x :: a) = norm (y :: b) ->
  nseg x = nseg y /\ norm a = norm b.
Proof.
  intros x y a b H.
  split; [exact (f_equal (fun l => hd x l) H) | exact (f_equal (@tl _) H)].
Qed.

Lemma norm_segFromString : forall p o, norm (segFromString (ups p) o) = norm (segFromString p o).
Proof.
  intros p o. unfold norm, segFromString, ups, nseg. rewrite !map_map. simpl.
  apply map_ext. intros c. rewrite upperA_idem. reflexivity.
Qed.

Ltac norm_if H :=
  cbv zeta; rewrite ?(norm_upperStr _ _ H), ?(norm_length _ _ H);
  repeat match goal with
  | |- context [if ?c then _ else _] => destruct c
  end; unfold normp; cbn [fst snd option_map];
  first [ exact H | apply norm_splice; exact H
        | f_equal; first [exact H | apply norm_splice; exact H] ].

Lemma norm_replaceAllPair : forall x y rep a b, norm a = norm b ->
  norm (replaceAllPair x y rep a) = norm (replaceAllPair x y rep b).
Proof.
  intros x y rep a.
  remember (length a) as n eqn:Hn. assert (Hle : (length a <= n)%nat) by lia. clear Hn.
  revert a Hle. induction n as [|n IH]; intros a Hle b H.
  - destruct a; [|simpl in Hle; lia]. destruct b; [reflexivity | discriminate].
  - destruct a as [|p [|q r]]; destruct b as [|p' [|q' r']]; try discriminate H;
      try exact H.
    apply norm_cons in H as [Hp H]. apply norm_cons in H as [Hq H].
    destruct (nseg_eq _ _ Hp) as [Up _]. destruct (nseg_eq _ _ Hq) as [Uq _].
    rewrite !replaceAllPair_cons2, Up, Uq.
    destruct ((upperA (ch p') =? x) && (upperA (ch q') =? y)).
    + unfold norm in *. rewrite !map_app. f_equal. apply IH; [simpl in Hle; lia | exact H].
    + unfold norm in *. cbn [map]. f_equal; [exact Hp|].
      apply (IH (q :: r)); [simpl in *; lia|]. cbn [map]. rewrite Hq. f_equal. exact H.
Qed.

Lemma norm_replaceEnding : forall suf rep a b, norm a = norm b ->
  normp (replaceEnding suf rep a) = normp (replaceEnding suf rep b).
Proof. intros suf rep a b H. unfold replaceEnding. norm_if H. Qed.

Lemma norm_replaceEndingLY : forall a b, norm a = norm b ->
  norm (replaceEndingLY a) = norm (replaceEndingLY b).
Proof. intros a b H. unfold replaceEndingLY. norm_if H. Qed.

Lemma norm_replaceEndingYToEH : forall a b, norm a = norm b ->
  normp (replaceEndingYToEH a) = normp (replaceEndingYToEH b).
Proof. intros a b H. unfold replaceEndingYToEH. norm_if H. Qed.

Lemma norm_applyEndingAH : forall a b, norm a = norm b ->
  normp (applyEndingAH a) = normp (applyEndingAH b).
Proof. intros a b H. unfold applyEndingAH. norm_if H. Qed.

Lemma norm_suffixTransforms : forall a b, norm a = norm b ->
  normp (suffixTransforms a) = normp (suffixTransforms b).
Proof.
  intros a b H. unfold suffixTransforms, suffixBeforeEndingAH.
  pose proof (norm_replaceAllPair 69 82 (js "AH") a b H) as H1.
  pose proof (norm_replaceAllPair 73 82 (js "AR") _ _ H1) as H2.
  pose proof (f_equal fst (norm_replaceEnding (js "TION") (js "SHAN") _ _ H2)) as H3.
  unfold normp in H3; cbn [fst] in H3.
  pose proof (f_equal fst (norm_replaceEnding (js "TY") (js "TEH") _ _ H3)) as H4.
  unfold normp in H4; cbn [fst] in H4.
  pose proof (norm_replaceEndingLY _ _ H4) as H5.
  pose proof (norm_applyEndingAH _ _ H5) as H6.
  unfold replaceAllERWithAH, replaceAllIRWithAR, replaceEndingTION, replaceEndingTY.
  destruct (applyEndingAH (replaceEndingLY _)) as [s1 f1].
  destruct (applyEndingAH (replaceEndingLY _)) as [s2 f2].
  unfold normp in H6; cbn [fst snd] in H6. injection H6 as H6 <-.
  pose proof (f_equal fst (norm_replaceEnding (js "AY") (js "AEH") _ _ H6)) as H7.
  unfold normp in H7; cbn [fst] in H7.
  pose proof (f_equal fst (norm_replaceEndingYToEH _ _ H7)) as H8.
  unfold normp in H8; cbn [fst] in H8.
  unfold replaceEndingAY, normp. cbn [fst snd]. rewrite H8. reflexivity.
Qed.

Lemma norm_nth_cases : forall a b n, norm a = norm b ->
  (nth_error a n = None /\ nth_error b n = None) \/
  exists x y, nth_error a n = Some x /\ nth_error b n = Some y /\
              upperA (ch x) = upperA (ch y) /\ origin x = origin y.
Proof.
  intros a b n H. pose proof (norm_nth a b n H) as E.
  destruct (nth_error a n) as [x|], (nth_error b n) as [y|]; cbn [option_map] in E;
    try discriminate E; [right | left; split; reflexivity].
  exists x, y. split; [reflexivity|]. split; [reflexivity|].
  injection E as E1 E2. split; assumption.
Qed.

Lemma ups_nth_cases : forall l1 l2 n, ups l1 = ups l2 ->
  (nth_error l1 n = None /\ nth_error l2 n = None) \/
  exists c d, nth_error l1 n = Some c /\ nth_error l2 n = Some d /\ upperA c = upperA d.
Proof.
  intros l1 l2 n H. assert (E : nth_error (ups l1) n = nth_error (ups l2) n) by (rewrite H; reflexivity).
  unfold ups in E. rewrite !nth_error_map in E.
  destruct (nth_error l1 n) as [c|], (nth_error l2 n) as [d|]; cbn [option_map] in E;
    try discriminate E; [right | left; split; reflexivity].
  exists c, d. injection E as E. split; [reflexivity | split; [reflexivity | exact E]].
Qed.

Ltac cons_rw U :=
  match type of U with upperA (ch ?x) = upperA (ch ?y) =>
    rewrite <- ?(isConsonantLetter_upperA (ch x)), ?U, ?isConsonantLetter_upperA
  end.

Ltac norm_leaf H :=
  cbn [option_map];
  first [ reflexivity | f_equal; first [exact H | apply norm_splice; exact H] ].

Lemma norm_replaceStarting : forall x y rep a b, norm a = norm b ->
  option_map norm (replaceStarting x y rep a) = option_map norm (replaceStarting x y rep b).
Proof.
  intros x y rep a b H. unfold replaceStarting. rewrite (norm_length _ _ H).
  destruct (2 <=? length b)%nat; [|norm_leaf H].
  destruct (norm_nth_cases a b 0 H) as [[E1 E2]|[p [q [E1 [E2 [U _]]]]]];
    rewrite E1, E2; cbn [bind]; [reflexivity|].
  destruct (norm_nth_cases a b 1 H) as [[F1 F2]|[p' [q' [F1 [F2 [U' _]]]]]];
    rewrite F1, F2; cbn [bind]; [reflexivity|].
  rewrite U, U'. destruct (_ && _); norm_leaf H.
Qed.

Lemma norm_applyPrefixREToRO : forall a b, norm a = norm b ->
  option_map norm (applyPrefixREToRO a) = option_map norm (applyPrefixREToRO b).
Proof.
  intros a b H. unfold applyPrefixREToRO. cbv zeta.
  assert (Hu : ups (segToString a) = ups (segToString b)) by exact (norm_upperStr _ _ H).
  assert (Hl : lows (segToString a) = lows (segToString b))
    by (rewrite <- (lows_ups (segToString a)), <- (lows_ups (segToString b)), Hu; reflexivity).
  assert (Hn : length (segToString a) = length (segToString b))
    by (unfold segToString; rewrite !length_map; exact (norm_length _ _ H)).
  rewrite Hl, Hn.
  destruct (list_eqb _ _); [norm_leaf H|].
  destruct (_ && _); [|norm_leaf H].
  destruct (ups_nth_cases _ _ 2 Hu) as [[E1 E2]|[c [d [E1 [E2 U]]]]];
    rewrite E1, E2; cbn [bind]; [reflexivity|].
  rewrite U. destruct (isVowel _); norm_leaf H.
Qed.

Lemma norm_applyClusterInsertions : forall a b, norm a = norm b ->
  option_map norm (applyClusterInsertions a) = option_map norm (applyClusterInsertions b).
Proof.
  intros a b H. unfold applyClusterInsertions. cbv zeta. rewrite (norm_length _ _ H).
  destruct (norm_nth_cases a b 0 H) as [[E1 E2]|[p [q [E1 [E2 [U _]]]]]];
    rewrite ?E1, ?E2; cbn [bind];
  (destruct (norm_nth_cases a b 1 H) as [[F1 F2]|[p' [q' [F1 [F2 [U' _]]]]]];
    rewrite ?F1, ?F2; cbn [bind];
  (destruct (norm_nth_cases a b 2 H) as [[G1 G2]|[p'' [q'' [G1 [G2 [U'' _]]]]]];
    rewrite ?G1, ?G2; cbn [bind])); try cons_rw U; try cons_rw U'; try rewrite U'';
  repeat match goal with |- context [if ?c then _ else _] => destruct c end;
  norm_leaf H.
Qed.

Lemma norm_preSwap : forall p1 p2, ups p1 = ups p2 ->
  option_map normp (preSwap p1) = option_map normp (preSwap p2).
Proof.
  intros p1 p2 Hp. unfold preSwap.
  assert (H0 : norm (segFromString p1 true) = norm (segFromString p2 true))
    by (rewrite <- (norm_segFromString p1), <- (norm_segFromString p2), Hp; reflexivity).
  pose proof (norm_suffixTransforms _ _ H0) as H1.
  destruct (suffixTransforms (segFromString p1 true)) as [s1 f1].
  destruct (suffixTransforms (segFromString p2 true)) as [s2 f2].
  unfold normp in H1; cbn [fst snd] in H1. injection H1 as H1 <-.
  unfold prefixTransforms, replaceStartingSNWithSAN, replaceStartingSWWithSAW.
  pose proof (norm_replaceStarting 83 78 (js "SAN") _ _ H1) as H2.
  destruct (replaceStarting 83 78 _ s1) as [t1|], (replaceStarting 83 78 _ s2) as [t2|];
    cbn [option_map] in H2; try discriminate H2; cbn [bind]; [|reflexivity].
  injection H2 as H2.
  pose proof (norm_replaceStarting 83 87 (js "SAW") _ _ H2) as H3.
  destruct (replaceStarting 83 87 _ t1) as [u1|], (replaceStarting 83 87 _ t2) as [u2|];
    cbn [option_map] in H3; try discriminate H3; cbn [bind]; [|reflexivity].
  injection H3 as H3.
  pose proof (norm_applyPrefixREToRO _ _ H3) as H4.
  destruct (applyPrefixREToRO u1) as [v1|], (applyPrefixREToRO u2) as [v2|];
    cbn [option_map] in H4; try discriminate H4; cbn [bind]; [|reflexivity].
  injection H4 as H4.
  pose proof (norm_applyClusterInsertions _ _ H4) as H5.
  destruct (applyClusterInsertions v1) as [w1|], (applyClusterInsertions v2) as [w2|];
    cbn [option_map] in H5; try discriminate H5; cbn [bind]; [|reflexivity].
  injection H5 as H5. cbn [option_map]. unfold normp. cbn [fst snd]. rewrite H5. reflexivity.
Qed.

Lemma norm_origVowelIdx_from : forall a b i, norm a = norm b ->
  origVowelIdx_from i a = origVowelIdx_from i b.
Proof.
  induction a as [|x a IH]; intros [|y b] i H; try discriminate H; [reflexivity|].
  apply norm_cons in H as [Hx H]. destruct (nseg_eq _ _ Hx) as [U O].
  cbn [origVowelIdx_from]. rewrite U, O, (IH b (S i) H). reflexivity.
Qed.

Lemma norm_swapStep : forall bd p i x y n1 n2,
  nseg x = nseg y -> option_map nseg n1 = option_map nseg n2 ->
  nseg (swapStep bd p i x n1) = nseg (swapStep bd p i y n2).
Proof.
  intros bd p i x y n1 n2 Hx Hn. destruct (nseg_eq _ _ Hx) as [U O].
  unfold swapStep. rewrite U, O.
  assert (Hv : match n1 with Some n => isVowel (upperA (ch n)) | None => false end =
               match n2 with Some n => isVowel (upperA (ch n)) | None => false end).
  { destruct n1 as [m1|], n2 as [m2|]; cbn [option_map] in Hn; try discriminate Hn; [|reflexivity].
    injection Hn as Hn1 Hn2. rewrite Hn1. reflexivity. }
  rewrite Hv.
  repeat match goal with |- context [if ?c then _ else _] => destruct c end;
    first [reflexivity | exact Hx].
Qed.

Lemma norm_swapLoop : forall bd p a b i, norm a = norm b ->
  norm (swapLoop bd p i a) = norm (swapLoop bd p i b).
Proof.
  intros bd p. induction a as [|x a IH]; intros [|y b] i H; try discriminate H; [reflexivity|].
  apply norm_cons in H as [Hx H]. cbn [swapLoop]. unfold norm in *. cbn [map].
  f_equal; [|apply IH; exact H].
  apply norm_swapStep; [exact Hx|].
  change (hd_error a) with (nth_error a 0). change (hd_error b) with (nth_error b 0).
  exact (norm_nth a b 0 H).
Qed.

Lemma ups_segToString : forall l, ups (segToString l) = segToString (norm l).
Proof. intros l. unfold ups, segToString, norm. rewrite !map_map. reflexivity. Qed.

Lemma norm_applyVowelSwaps : forall a b f, norm a = norm b ->
  ups (segToString (applyVowelSwaps a f)) = ups (segToString (applyVowelSwaps b f)).
Proof.
  intros a b f H. rewrite !ups_segToString. unfold applyVowelSwaps.
  assert (Hb : protectedSuffixStartIndex a = protectedSuffixStartIndex b)
    by (unfold protectedSuffixStartIndex; rewrite (norm_upperStr _ _ H); reflexivity).
  assert (Hi : origVowelIdx a = origVowelIdx b) by exact (norm_origVowelIdx_from a b 0 H).
  rewrite Hb, Hi, (norm_swapLoop _ _ a b 0 H). reflexivity.
Qed.

Lemma upperA_eq_nonletter : forall c d, upperA c = upperA d -> isLetter d = false -> c = d.
Proof.
  intros c d H Hd. pose proof (upperA_nonletter d Hd) as Ed.
  assert (Hc : isLetter c = false) by (rewrite <- isLetter_upperA, H, isLetter_upperA; exact Hd).
  rewrite (upperA_nonletter c Hc) in H. congruence.
Qed.

Lemma exc_matches_ups : forall ex p1 p2, ups p1 = ups p2 -> exc_matches ex p1 = exc_matches ex p2.
Proof.
  intros ex p1 p2 H. unfold exc_matches. destruct (matcher ex).
  - rewrite <- (lows_ups p1), <- (lows_ups p2), H. reflexivity.
  - rewrite H. reflexivity.
Qed.

Lemma applyExceptions_in_ups : forall tbl p1 p2, forallb fixed_out tbl = true -> ups p1 = ups p2 ->
  fst (applyExceptions_in tbl p1) = fst (applyExceptions_in tbl p2) /\
  (fst (applyExceptions_in tbl p1) = true ->
   snd (applyExceptions_in tbl p1) = snd (applyExceptions_in tbl p2)).
Proof.
  induction tbl as [|ex tbl IH]; intros p1 p2 Hf H; [split; [reflexivity | discriminate]|].
  simpl in Hf. apply andb_true_iff in Hf as [Hex Hf]. cbn [applyExceptions_in].
  rewrite (exc_matches_ups ex p1 p2 H).
  destruct (exc_matches ex p2); [|exact (IH p1 p2 Hf H)].
  split; [reflexivity|]. intros _. cbn [snd]. unfold exc_output, fixed_out in *.
  destruct (out ex); [reflexivity | discriminate].
Qed.

Lemma ups_transformWordPart : forall p1 p2, ups p1 = ups p2 ->
  transformWordPart p1 = transformWordPart p2.
Proof.
  intros p1 p2 H. unfold transformWordPart.
  destruct (applyExceptions_in_ups EXCEPTIONS p1 p2 ltac:(vm_compute; reflexivity) H) as [Hh Ho].
  unfold applyExceptions.
  destruct (applyExceptions_in EXCEPTIONS p1) as [h1 o1], (applyExceptions_in EXCEPTIONS p2) as [h2 o2].
  cbn [fst snd] in Hh, Ho. subst h2. destruct h1; [rewrite (Ho eq_refl); reflexivity|].
  pose proof (norm_preSwap p1 p2 H) as Hp.
  destruct (preSwap p1) as [[s1 f1]|], (preSwap p2) as [[s2 f2]|];
    cbn [option_map] in Hp; try discriminate Hp; cbn [bind]; [|reflexivity].
  unfold normp in Hp; cbn [fst snd] in Hp. injection Hp as Hs <-.
  rewrite (norm_applyVowelSwaps _ _ f1 Hs). reflexivity.
Qed.

Lemma ups_split_keep : forall t1 t2, ups t1 = ups t2 ->
  Forall2 (fun a b => ups a = ups b) (split_keep t1) (split_keep t2).
Proof.
  induction t1 as [|c t1 IH]; intros [|d t2] H; try discriminate H.
  - repeat constructor.
  - unfold ups in H. cbn [map] in H. injection H as Hc H.
    cbn [split_keep]. rewrite <- (isSep_upperA c), Hc, isSep_upperA.
    pose proof (IH t2 H) as IH'.
    destruct (isSep d).
    + repeat constructor; try exact IH'. unfold ups. cbn [map]. rewrite Hc. reflexivity.
    + inversion IH' as [|p q ps qs Hpq Hr E1 E2]; [repeat constructor; unfold ups; cbn [map]; rewrite Hc; reflexivity|].
      constructor; [|exact Hr]. unfold ups in *. cbn [map]. rewrite Hc, Hpq. reflexivity.
Qed.

Lemma mapM_Forall2_eq : forall {A B} (R : A -> A -> Prop) (f : A -> option B) l1 l2,
  (forall a b, R a b -> f a = f b) -> Forall2 R l1 l2 -> mapM f l1 = mapM f l2.
Proof.
  intros A B R f l1 l2 Hf H. induction H as [|a b l1 l2 Hab _ IH]; [reflexivity|].
  cbn [mapM]. rewrite (Hf a b Hab), IH. reflexivity.
Qed.

Lemma ups_transformPiece : forall p1 p2, ups p1 = ups p2 -> transformPiece p1 = transformPiece p2.
Proof.
  intros p1 p2 H. unfold transformPiece.
  destruct p1 as [|c [|c' r1]], p2 as [|d [|d' r2]]; try discriminate H;
    try (apply ups_transformWordPart; exact H);
    try (cbn [list_eqb]; rewrite ?andb_false_r; cbn [orb]; apply ups_transformWordPart; exact H).
  unfold ups in H. cbn [map] in H. injection H as Hc.
  cbn [list_eqb]. rewrite !andb_true_r.
  destruct (Z.eqb_spec d 45) as [->|Hd]; [rewrite (upperA_eq_nonletter c 45 Hc eq_refl); reflexivity|].
  destruct (Z.eqb_spec d 39) as [->|Hd']; [rewrite (upperA_eq_nonletter c 39 Hc eq_refl); reflexivity|].
  destruct (Z.eqb_spec c 45) as [->|Hc1];
    [rewrite (upperA_eq_nonletter d 45 (eq_sym Hc) eq_refl) in Hd; contradiction|].
  destruct (Z.eqb_spec c 39) as [->|Hc2];
    [rewrite (upperA_eq_nonletter d 39 (eq_sym Hc) eq_refl) in Hd'; contradiction|].
  cbn [orb]. apply ups_transformWordPart. unfold ups. cbn [map]. rewrite Hc. reflexivity.
Qed.

Lemma ups_transformWordToken : forall t1 t2, ups t1 = ups t2 ->
  transformWordToken t1 = transformWordToken t2.
Proof.
  intros t1 t2 H. unfold transformWordToken.
  rewrite (mapM_Forall2_eq _ transformPiece _ _ ups_transformPiece (ups_split_keep t1 t2 H)).
  reflexivity.
Qed.

Lemma ups_snoc : forall t1 t2 l1 l2, ups t1 = ups t2 -> ups l1 = ups l2 -> ups (t1 ++ l1) = ups (t2 ++ l2).
Proof. intros. unfold ups in *. rewrite !map_app. congruence. Qed.

Lemma ups_scan_from : forall s1 s2 st1 st2, ups s1 = ups s2 -> st_rel st1 st2 ->
  Forall2 span_rel (scan_from st1 s1) (scan_from st2 s2).
Proof.
  induction s1 as [|c s1 IH]; intros [|d s2] st1 st2 H Hst; try discriminate H.
  - destruct st1 as [|t1|t1 d1], st2 as [|t2|t2 d2]; simpl in Hst; try contradiction;
      cbn [scan_from]; repeat constructor; simpl; try tauto.
    destruct Hst as [_ ->]. reflexivity.
  - unfold ups in H. cbn [map] in H. injection H as Hc H.
    assert (Hl : isLetter c = isLetter d) by (rewrite <- isLetter_upperA, Hc, isLetter_upperA; reflexivity).
    assert (Hs : isSep c = isSep d) by (rewrite <- isSep_upperA, Hc, isSep_upperA; reflexivity).
    assert (Hu1 : ups [c] = ups [d]) by (unfold ups; cbn [map]; rewrite Hc; reflexivity).
    destruct st1 as [|t1|t1 d1], st2 as [|t2|t2 d2]; simpl in Hst; try contradiction;
      cbn [scan_from]; rewrite Hl; [| |destruct Hst as [Ht <-]].
    + destruct (isLetter d) eqn:Ed; [apply IH; [exact H | exact Hu1]|].
      rewrite (upperA_eq_nonletter c d Hc Ed). constructor; [reflexivity|]. apply IH; [exact H | exact I].
    + destruct (isLetter d) eqn:Ed; [apply IH; [exact H | apply ups_snoc; assumption]|].
      rewrite Hs. destruct (isSep d) eqn:Es.
      * apply IH; [exact H|]. split; [exact Hst|].
        apply (upperA_eq_nonletter c d Hc). apply sep_not_letter, Es.
      * rewrite (upperA_eq_nonletter c d Hc Ed).
        constructor; [exact Hst|]. constructor; [reflexivity|]. apply IH; [exact H | exact I].
    + destruct (isLetter d) eqn:Ed.
      * apply IH; [exact H|]. apply ups_snoc; [exact Ht|].
        unfold ups; cbn [map]; rewrite Hc; reflexivity.
      * rewrite (upperA_eq_nonletter c d Hc Ed).
        constructor; [exact Ht|]. constructor; [reflexivity|]. constructor; [reflexivity|].
        apply IH; [exact H | exact I].
Qed.

Lemma span_out_rel : forall p q, span_rel p q -> span_out p = span_out q.
Proof.
  intros [g1|t1] [g2|t2] H; simpl in H; try contradiction; cbn [span_out].
  - rewrite H. reflexivity.
  - apply ups_transformWordToken, H.
Qed.

(** Conversion ignores the letter case of its input: two texts that agree
    up to ASCII case ([A-Z] against [a-z]) convert to the same output. *)
Theorem convertText_case_insensitive : forall up in1 in2,
  ups in1 = ups in2 -> convertText up in1 = convertText up in2.
Proof.
  intros up in1 in2 H. unfold convertText, scan.
  rewrite (mapM_Forall2_eq _ span_out _ _ span_out_rel (ups_scan_from in1 in2 SGap SGap H I)).
  reflexivity.
Qed.

Lemma convertText_case_insensitive_witness :
  ups (js "Don't Stop") = ups (js "DON'T stop") /\
  convertText upperLatin1 (js "Don't Stop") = convertText upperLatin1 (js "DON'T stop").
Proof.
  split; [vm_compute; reflexivity|].
  apply convertText_case_insensitive. vm_compute. reflexivity.
Defined.

(** ** The [app.js] variant *)

Lemma norm_applyStartingUYoo : forall a b, norm a = norm b ->
  option_map norm (AppJs.applyStartingUYoo a) = option_map norm (AppJs.applyStartingUYoo b).
Proof.
  intros a b H. unfold AppJs.applyStartingUYoo. cbv zeta. rewrite (norm_length _ _ H).
  destruct (2 <=? length b)%nat; [|norm_leaf H].
  destruct (norm_nth_cases a b 0 H) as [[E1 E2]|[p [q [E1 [E2 [U _]]]]]];
    rewrite E1, E2; cbn [bind]; [reflexivity|].
  destruct (norm_nth_cases a b 1 H) as [[F1 F2]|[p' [q' [F1 [F2 [U' _]]]]]];
    rewrite F1, F2; cbn [bind]; [reflexivity|].
  rewrite U, U'. destruct (_ && _); norm_leaf H.
Qed.

Lemma norm_AppJs_suffixTransforms : forall a b, norm a = norm b ->
  normp (AppJs.suffixTransforms a) = normp (AppJs.suffixTransforms b).
Proof.
  intros a b H. unfold AppJs.suffixTransforms.
  pose proof (norm_replaceAllPair 69 82 (js "AH") a b H) as H1.
  pose proof (f_equal fst (norm_replaceEnding (js "TION") (js "SHAN") _ _ H1)) as H3.
  unfold normp in H3; cbn [fst] in H3.
  pose proof (f_equal fst (norm_replaceEnding (js "TY") (js "TEH") _ _ H3)) as H4.
  unfold normp in H4; cbn [fst] in H4.
  pose proof (norm_replaceEndingLY _ _ H4) as H5.
  pose proof (norm_applyEndingAH _ _ H5) as H6.
  unfold replaceAllERWithAH, replaceEndingTION, replaceEndingTY.
  destruct (applyEndingAH (replaceEndingLY _)) as [s1 f1].
  destruct (applyEndingAH (replaceEndingLY _)) as [s2 f2].
  unfold normp in H6; cbn [fst snd] in H6. injection H6 as H6 <-.
  pose proof (f_equal fst (norm_replaceEndingYToEH _ _ H6)) as H8.
  unfold normp in H8; cbn [fst] in H8.
  unfold normp. cbn [fst snd]. rewrite H8. reflexivity.
Qed.

Lemma norm_AppJs_preSwap : forall p1 p2, ups p1 = ups p2 ->
  option_map normp (AppJs.preSwap p1) = option_map normp (AppJs.preSwap p2).
Proof.
  intros p1 p2 Hp. unfold AppJs.preSwap.
  assert (H0 : norm (segFromString p1 true) = norm (segFromString p2 true))
    by (rewrite <- (norm_segFromString p1), <- (norm_segFromString p2), Hp; reflexivity).
  pose proof (norm_AppJs_suffixTransforms _ _ H0) as H1.
  destruct (AppJs.suffixTransforms (segFromString p1 true)) as [s1 f1].
  destruct (AppJs.suffixTransforms (segFromString p2 true)) as [s2 f2].
  unfold normp in H1; cbn [fst snd] in H1. injection H1 as H1 <-.
  unfold AppJs.prefixTransforms.
  pose proof (norm_applyStartingUYoo _ _ H1) as H2.
  destruct (AppJs.applyStartingUYoo s1) as [t1|], (AppJs.applyStartingUYoo s2) as [t2|];
    cbn [option_map] in H2; try discriminate H2; cbn [bind]; [|reflexivity].
  injection H2 as H2.
  pose proof (norm_applyPrefixREToRO _ _ H2) as H4.
  destruct (applyPrefixREToRO t1) as [v1|], (applyPrefixREToRO t2) as [v2|];
    cbn [option_map] in H4; try discriminate H4; cbn [bind]; [|reflexivity].
  injection H4 as H4.
  pose proof (norm_applyClusterInsertions _ _ H4) as H5.
  destruct (applyClusterInsertions v1) as [w1|], (applyClusterInsertions v2) as [w2|];
    cbn [option_map] in H5; try discriminate H5; cbn [bind]; [|reflexivity].
  injection H5 as H5. cbn [option_map]. unfold normp. cbn [fst snd]. rewrite H5. reflexivity.
Qed.

Lemma ups_AppJs_transformWordPart : forall p1 p2, ups p1 = ups p2 ->
  AppJs.transformWordPart p1 = AppJs.transformWordPart p2.
Proof.
  intros p1 p2 H. unfold AppJs.transformWordPart.
  destruct (applyExceptions_in_ups AppJs.EXCEPTIONS p1 p2 ltac:(vm_compute; reflexivity) H) as [Hh Ho].
  unfold AppJs.applyExceptions.
  destruct (applyExceptions_in AppJs.EXCEPTIONS p1) as [h1 o1], (applyExceptions_in AppJs.EXCEPTIONS p2) as [h2 o2].
  cbn [fst snd] in Hh, Ho. subst h2. destruct h1; [rewrite (Ho eq_refl); reflexivity|].
  pose proof (norm_AppJs_preSwap p1 p2 H) as Hp.
  destruct (AppJs.preSwap p1) as [[s1 f1]|], (AppJs.preSwap p2) as [[s2 f2]|];
    cbn [option_map] in Hp; try discriminate Hp; cbn [bind]; [|reflexivity].
  unfold normp in Hp; cbn [fst snd] in Hp. injection Hp as Hs <-.
  rewrite (norm_applyVowelSwaps _ _ f1 Hs). reflexivity.
Qed.

Lemma ups_AppJs_transformPiece : forall p1 p2, ups p1 = ups p2 ->
  AppJs.transformPiece p1 = AppJs.transformPiece p2.
Proof.
  intros p1 p2 H. unfold AppJs.transformPiece.
  destruct p1 as [|c [|c' r1]], p2 as [|d [|d' r2]]; try discriminate H;
    try (apply ups_AppJs_transformWordPart; exact H);
    try (cbn [list_eqb]; rewrite ?andb_false_r; cbn [orb]; apply ups_AppJs_transformWordPart; exact H).
  unfold ups in H. cbn [map] in H. injection H as Hc.
  cbn [list_eqb]. rewrite !andb_true_r.
  destruct (Z.eqb_spec d 45) as [->|Hd]; [rewrite (upperA_eq_nonletter c 45 Hc eq_refl); reflexivity|].
  destruct (Z.eqb_spec d 39) as [->|Hd']; [rewrite (upperA_eq_nonletter c 39 Hc eq_refl); reflexivity|].
  destruct (Z.eqb_spec c 45) as [->|Hc1];
    [rewrite (upperA_eq_nonletter d 45 (eq_sym Hc) eq_refl) in Hd; contradiction|].
  destruct (Z.eqb_spec c 39) as [->|Hc2];
    [rewrite (upperA_eq_nonletter d 39 (eq_sym Hc) eq_refl) in Hd'; contradiction|].
  cbn [orb]. apply ups_AppJs_transformWordPart. unfold ups. cbn [map]. rewrite Hc. reflexivity.
Qed.

Lemma AppJs_span_out_rel : forall p q, span_rel p q -> AppJs.span_out p = AppJs.span_out q.
Proof.
  intros [g1|t1] [g2|t2] H; simpl in H; try contradiction; cbn [AppJs.span_out].
  - rewrite H. reflexivity.
  - unfold AppJs.transformWordToken.
    rewrite (mapM_Forall2_eq _ AppJs.transformPiece _ _ ups_AppJs_transformPiece (ups_split_keep t1 t2 H)).
    reflexivity.
Qed.

(** The [app.js] converter also ignores the letter case of its input. *)
Theorem AppJs_convertText_case_insensitive : forall up in1 in2,
  ups in1 = ups in2 -> AppJs.convertText up in1 = AppJs.convertText up in2.
Proof.
  intros up in1 in2 H. unfold AppJs.convertText, scan.
  rewrite (mapM_Forall2_eq _ AppJs.span_out _ _ AppJs_span_out_rel (ups_scan_from in1 in2 SGap SGap H I)).
  reflexivity.
Qed.

Lemma AppJs_convertText_case_insensitive_witness :
  ups (js "Unset Internet") = ups (js "unSET INTERNET") /\
  AppJs.convertText upperLatin1 (js "Unset Internet") = AppJs.convertText upperLatin1 (js "unSET INTERNET").
Proof.
  split; [vm_compute; reflexivity|].
  apply AppJs_convertText_case_insensitive. vm_compute. reflexivity.
Defined.

Lemma derived_applyStartingUYoo : forall segs r,
  AppJs.applyStartingUYoo segs = Some r -> derived r segs.
Proof. intros segs r H. unfold AppJs.applyStartingUYoo in H. derived_opt H. Qed.

Lemma grows_applyStartingUYoo : forall segs r,
  AppJs.applyStartingUYoo segs = Some r -> grows r segs.
Proof. intros segs r H. unfold AppJs.applyStartingUYoo in H. grow_opt H. Qed.

Lemma AppJs_suffix_derived_grows : forall segs,
  derived (fst (AppJs.suffixTransforms segs)) segs /\ grows (fst (AppJs.suffixTransforms segs)) segs.
Proof.
  intros segs. unfold AppJs.suffixTransforms.
  destruct (applyEndingAH _) as [s1 f] eqn:Hah. cbn [fst].
  assert (Hs1 : s1 = fst (applyEndingAH (replaceEndingLY (fst (replaceEndingTY
                  (fst (replaceEndingTION (replaceAllERWithAH segs))))))))
    by (rewrite Hah; reflexivity).
  split.
  - eapply derived_trans; [apply derived_replaceEndingYToEH|].
    eapply derived_trans; [rewrite Hs1; apply derived_applyEndingAH|].
    eapply derived_trans; [apply derived_replaceEndingLY|].
    eapply derived_trans; [apply derived_replaceEnding; vm_compute; reflexivity|].
    eapply derived_trans; [apply derived_replaceEnding; vm_compute; reflexivity|].
    apply derived_replaceAllPair; vm_compute; reflexivity.
  - eapply grows_trans; [apply grows_replaceEndingYToEH|].
    eapply grows_trans; [rewrite Hs1; apply grows_applyEndingAH|].
    eapply grows_trans; [apply grows_replaceEndingLY|].
    eapply grows_trans; [apply grows_replaceEnding; vm_compute; lia|].
    eapply grows_trans; [apply grows_replaceEnding; vm_compute; lia|].
    apply grows_replaceAllPair; reflexivity.
Qed.

Lemma AppJs_preSwap_derived_grows : forall part segs f,
  AppJs.preSwap part = Some (segs, f) ->
  derived segs (segFromString part true) /\ grows segs (segFromString part true).
Proof.
  intros part segs f H. unfold AppJs.preSwap in H.
  pose proof (AppJs_suffix_derived_grows (segFromString part true)) as [Ds Gs].
  destruct (AppJs.suffixTransforms _) as [s1 f1]. cbn [fst] in Ds, Gs.
  unfold AppJs.prefixTransforms in H.
  destruct (AppJs.applyStartingUYoo s1) as [s2|] eqn:H2; [|discriminate]. cbn [bind] in H.
  destruct (applyPrefixREToRO s2) as [s4|] eqn:H4; [|discriminate]. cbn [bind] in H.
  destruct (applyClusterInsertions s4) as [s5|] eqn:H5; [|discriminate]. cbn [bind] in H.
  injection H as <- _. split.
  - eapply derived_trans; [exact (derived_applyClusterInsertions _ _ H5)|].
    eapply derived_trans; [exact (derived_applyPrefixREToRO _ _ H4)|].
    eapply derived_trans; [exact (derived_applyStartingUYoo _ _ H2)|]. exact Ds.
  - eapply grows_trans; [exact (grows_applyClusterInsertions _ _ H5)|].
    eapply grows_trans; [exact (grows_applyPrefixREToRO _ _ H4)|].
    eapply grows_trans; [exact (grows_applyStartingUYoo _ _ H2)|]. exact Gs.
Qed.

Lemma AppJs_EXCEPTIONS_letter_outputs : forall ex w, In ex AppJs.EXCEPTIONS ->
  forallb isLetter (exc_output ex w) = true.
Proof.
  intros ex w H. unfold AppJs.EXCEPTIONS in H.
  repeat (destruct H as [<-|H]; [vm_compute; reflexivity|]). destruct H.
Qed.

(** In [app.js] too, a word-part made of letters comes out of
    [transformWordPart] made of uppercase letters A-Z only. *)
Theorem AppJs_transformWordPart_upper_letters : forall part out,
  forallb isLetter part = true ->
  AppJs.transformWordPart part = Some out ->
  forallb isUpperLetter out = true.
Proof.
  intros part out Hl Ht. unfold AppJs.transformWordPart in Ht.
  destruct (AppJs.applyExceptions part) as [hit o] eqn:He. destruct hit.
  - injection Ht as <-. apply ups_letters.
    destruct (applyExceptions_in_hit _ _ _ He) as [ex [Hin ->]].
    apply AppJs_EXCEPTIONS_letter_outputs, Hin.
  - destruct (AppJs.preSwap part) as [[segs f]|] eqn:Hp; [|discriminate]. cbn [bind] in Ht.
    injection Ht as <-. apply ups_letters. rewrite forallb_forall. intros c Hc.
    unfold segToString in Hc. apply in_map_iff in Hc as [s [<- Hs]].
    destruct (AppJs_preSwap_derived_grows part segs f Hp) as [D _].
    destruct (derived_trans _ _ _ (derived_swapLoop _ _ segs 0) D s Hs) as [Hin | [_ Hlet]];
      [|exact Hlet].
    unfold segFromString in Hin. apply in_map_iff in Hin as [c [<- Hc]].
    rewrite forallb_forall in Hl. exact (Hl c Hc).
Qed.

Lemma AppJs_transformWordPart_upper_letters_witness :
  forallb isLetter (js "universal") = true /\
  forallb isUpperLetter (js "YAUNOVAHSAL") = true /\
  AppJs.transformWordPart (js "universal") = Some (js "YAUNOVAHSAL").
Proof.
  split; [vm_compute; reflexivity|]. split; [|vm_compute; reflexivity].
  apply (AppJs_transformWordPart_upper_letters (js "universal")); vm_compute; reflexivity.
Defined.

(** In [app.js], when no exception fires, the output of [transformWordPart]
    is at least as long as the word-part. *)
Theorem AppJs_transformWordPart_not_shorter : forall part out,
  fst (AppJs.applyExceptions part) = false ->
  AppJs.transformWordPart part = Some out ->
  (length part <= length out)%nat.
Proof.
  intros part out Hex Ht. unfold AppJs.transformWordPart in Ht.
  destruct (AppJs.applyExceptions part) as [hit o]. simpl in Hex. subst hit.
  destruct (AppJs.preSwap part) as [[segs f]|] eqn:Hp; [|discriminate]. cbn [bind] in Ht.
  injection Ht as <-.
  unfold ups, segToString, applyVowelSwaps. rewrite !length_map, swapLoop_length.
  destruct (AppJs_preSwap_derived_grows part segs f Hp) as [_ G].
  unfold grows, segFromString in G. rewrite length_map in G. exact G.
Qed.

Lemma AppJs_transformWordPart_not_shorter_witness :
  fst (AppJs.applyExceptions (js "unset")) = false /\
  AppJs.transformWordPart (js "unset") = Some (js "YAUNSET") /\
  (length (js "unset") <= length (js "YAUNSET"))%nat.
Proof.
  split; [vm_compute; reflexivity|]. split; [vm_compute; reflexivity|].
  apply (AppJs_transformWordPart_not_shorter (js "unset")); vm_compute; reflexivity.
Defined.

Lemma split_keep_nosep : forall t, forallb (fun c => negb (isSep c)) t = true -> split_keep t = [t].
Proof.
  induction t as [|c t IH]; intros H; [reflexivity|].
  simpl in H. apply andb_true_iff in H as [Hc H]. cbn [split_keep].
  destruct (isSep c); [discriminate|]. rewrite (IH H). reflexivity.
Qed.

(** A token without [-] or ['] is transformed as a single word-part. *)
Theorem transformWordToken_single_part : forall t,
  forallb (fun c => negb (isSep c)) t = true ->
  transformWordToken t = transformWordPart t.
Proof.
  intros t H. unfold transformWordToken. rewrite (split_keep_nosep t H).
  cbn [mapM]. unfold transformPiece.
  assert (Hs : list_eqb t [45] || list_eqb t [39] = false).
  { destruct t as [|c [|c' r]]; [reflexivity| |cbn [list_eqb]; rewrite !andb_false_r; reflexivity].
    simpl in H. rewrite andb_true_r in H. unfold isSep in H. cbn [list_eqb]. rewrite !andb_true_r.
    apply negb_true_iff, orb_false_iff in H as [-> ->]. reflexivity. }
  rewrite Hs. destruct (transformWordPart t); cbn [bind]; [|reflexivity].
  cbn [concat]. rewrite app_nil_r. reflexivity.
Qed.

Lemma transformWordToken_single_part_witness :
  forallb (fun c => negb (isSep c)) (js "internet") = true /\
  transformWordToken (js "internet") = transformWordPart (js "internet").
Proof.
  split; [vm_compute; reflexivity|].
  apply transformWordToken_single_part. vm_compute. reflexivity.
Defined.

Lemma applyVowelSwaps_changes_witness :
  nth_error (segFromString (js "cat") true) 1 = Some (Seg 97 true) /\
  nth_error (applyVowelSwaps (segFromString (js "cat") true) true) 1 = Some (Seg 111 false).
Proof.
  split; [reflexivity|].
  destruct (proj2 (applyVowelSwaps_changes (segFromString (js "cat") true) true) 1%nat (Seg 97 true) eq_refl)
    as [H | (_ & _ & _ & _ & _ & H)]; [vm_compute in H; discriminate H | exact H].
Defined.
